(** * Payoff layer of the Monte-Carlo library: products of [mcPrd.h]

  A shallow embedding of the four products of [mcPrd.h] (European, UOC,
  Europeans, ContingentBond): their constructors (timeline, dataline,
  labels) and their [payoffs] functions.

  Numbers.  [double] and [Time] are modelled by exact rationals: rounding
  and overflow are not modelled.  The template parameter [T] is taken at
  its plain scalar realisation; a value of type [T] is either a finite
  rational or a non-finite IEEE value (an infinity or a NaN, what a
  division by zero produces).  The observables of a path are finite.  The
  products compare sums and products of observables only, and divide by
  observables and by 2 * smooth only, never by a computed quotient, so a
  non-finite value stays non-finite through the additions, multiplications
  and divisions that follow: the model has one [NonFinite] value, absorbing
  for all operations.

  Vectors.  A [vector] is a list.  Indexing a vector out of range and
  [back()] on an empty vector have no defined behaviour in C++; the model
  makes this outcome explicit as [Undefined]. *)

From Stdlib Require Import String QArith Qminmax Qround Lqa Lia ZArith List Bool Sorted.
Import ListNotations.
Open Scope Q_scope.

(** ** Shared data model

  [mcPrd.h] includes [mcBase.h], which declares [Time], [SimulDef],
  [Sample], [Scenario], [Product] and the global [systemTime].  The
  declarations below give these types the fields that [mcPrd.h] reads and
  writes, following section 3 of the specification; [systemTime] is an
  argument of the constructors that read it. *)

Module Base.

(** Modelled from the spec: [Time], declared in [mcBase.h], "a
  totally-ordered real-valued year-fraction"; a [double]. *)
Abbreviation Time := Q (only parsing).

(** [a > b] and [a < b] on doubles *)
Definition gt (a b : Q) : bool := negb (Qle_bool a b).
Definition lt (a b : Q) : bool := gt b a.

(** [std::max(a, b)]: returns [b] when [a < b], otherwise [a] *)
Definition max (a b : Q) : Q := if lt a b then b else a.

(** Values of the numeric type [T] *)
Inductive T : Type :=
| Fin (q : Q)
| NonFinite.

Definition lift2 (f : Q -> Q -> Q) (a b : T) : T :=
  match a, b with
  | Fin x, Fin y => Fin (f x y)
  | _, _ => NonFinite
  end.

Definition Tadd : T -> T -> T := lift2 Qplus.
Definition Tsub : T -> T -> T := lift2 Qminus.
Definition Tmul : T -> T -> T := lift2 Qmult.

(** Division: a zero divisor yields a non-finite value.  The overflow and
  the underflow of doubles are not modelled: a quotient by a nonzero
  divisor is taken to be finite. *)
Definition Tdiv (a b : T) : T :=
  match a, b with
  | Fin x, Fin y => if Qeq_bool y 0 then NonFinite else Fin (x / y)
  | _, _ => NonFinite
  end.

(** Equality of values up to equality of rationals *)
Definition Teq (a b : T) : Prop :=
  match a, b with
  | Fin x, Fin y => x == y
  | NonFinite, NonFinite => True
  | _, _ => False
  end.

(** Outcome of a function that indexes vectors *)
Inductive result (A : Type) : Type :=
| Ok (a : A)
| Undefined.
Arguments Ok {A} a.
Arguments Undefined {A}.

Definition bind {A B : Type} (r : result A) (k : A -> result B) : result B :=
  match r with
  | Ok a => k a
  | Undefined => Undefined
  end.

(** [v[i]] *)
Definition at_ {A : Type} (v : list A) (i : nat) : result A :=
  match nth_error v i with
  | Some x => Ok x
  | None => Undefined
  end.

(** [v.back()] *)
Definition back {A : Type} (v : list A) : result A :=
  at_ v (length v - 1).

(** [v[i] = x] *)
Fixpoint store {A : Type} (v : list A) (i : nat) (x : A) : result (list A) :=
  match v, i with
  | [], _ => Undefined
  | _ :: v', O => Ok (x :: v')
  | y :: v', S i' => bind (store v' i' x) (fun w => Ok (y :: w))
  end.

(** Equality of payoff buffers, and of outcomes, up to [Teq] *)
Definition Veq (v w : list T) : Prop := Forall2 Teq v w.

Definition Req (r s : result (list T)) : Prop :=
  match r, s with
  | Ok v, Ok w => Veq v w
  | Undefined, Undefined => True
  | _, _ => False
end.

(** Modelled from the spec: [SimulDef::RateDef], declared in [mcBase.h],
  a rate definition "(start Time, end Time, tag)"; [mcPrd.h] builds it
  as [RateDef(start, end, "libor")]. *)
Module RateDef.
Record t : Type := make { start : Time; end_ : Time; curve : string }.
End RateDef.

(** Modelled from the spec: [SimulDef], declared in [mcBase.h], the
  simulation requirement of one timeline point: "numeraire flag, a set of
  forward-observation maturities, a set of discount-factor maturities, a
  set of floating-rate definitions", each an ordered sequence. *)
Module SimulDef.
Record t : Type := make {
  numeraire : bool;
  forwardMats : list Time;
  discountMats : list Time;
  liborDefs : list RateDef.t
}.

(** A default-constructed definition, as [resize] creates them.  Every
  constructor of [mcPrd.h] assigns the numeraire flag of every entry, so
  its default value is not observable. *)
Definition empty : t := make true [] [] [].

Definition set_numeraire (d : t) (b : bool) : t :=
  make b (forwardMats d) (discountMats d) (liborDefs d).
Definition push_forwardMat (d : t) (m : Time) : t :=
  make (numeraire d) (forwardMats d ++ [m]) (discountMats d) (liborDefs d).
Definition push_discountMat (d : t) (m : Time) : t :=
  make (numeraire d) (forwardMats d) (discountMats d ++ [m]) (liborDefs d).
Definition push_liborDef (d : t) (r : RateDef.t) : t :=
  make (numeraire d) (forwardMats d) (discountMats d) (liborDefs d ++ [r]).
End SimulDef.

(** Modelled from the spec: [Sample<T>], declared in [mcBase.h], the
  scenario entry of one timeline point: "forwards, discounts, libors"
  (ordered sequences aligned with the requests) and "numeraire".  The
  observables come from the simulation and are finite. *)
Module Sample.
Record t : Type := make {
  numeraire : Q;
  forwards : list Q;
  discounts : list Q;
  libors : list Q
}.
End Sample.

(** Modelled from the spec: [Scenario<T>], declared in [mcBase.h], the
  "ordered sequence of ScenarioEntry", one sample per timeline point. *)
Definition Scenario : Type := list Sample.t.

(** A sample answers a definition when it holds one value per requested
    maturity or rate; a path is aligned with a dataline when it has one
    such sample per event date. *)
Definition answers (d : SimulDef.t) (s : Sample.t) : bool :=
  Nat.eqb (length (Sample.forwards s)) (length (SimulDef.forwardMats d))
  && Nat.eqb (length (Sample.discounts s)) (length (SimulDef.discountMats d))
  && Nat.eqb (length (Sample.libors s)) (length (SimulDef.liborDefs d)).

Fixpoint aligned (dataline : list SimulDef.t) (path : Scenario) : bool :=
  match dataline, path with
  | [], [] => true
  | d :: dl, s :: p => answers d s && aligned dl p
  | _, _ => false
  end.

(** What is streamed into a label: text, or a number printed with two
    decimals (the formatting of numbers is not modelled). *)
Inductive token : Type :=
| Text (s : string)
| Number (q : Q).

Definition label : Type := list token.

End Base.

Import Base.

Notation "x <- r ;; k" := (bind r (fun x => k))
(at level 61, r at next level, right associativity).

(** ** European call *)

Module European.

Record t : Type := make {
  myStrike : Q;
  myExerciseDate : Time;
  mySettlementDate : Time;
  myTimeline : list Time;
  myDataline : list SimulDef.t;
  myLabels : list label
}.

(** Constructor: store data and build timeline *)
Definition European (strike : Q) (exerciseDate settlementDate : Time) : t :=
  let timeline := [exerciseDate] in
  let d0 := SimulDef.empty in
  let d0 := SimulDef.set_numeraire d0 true in
  let d0 := SimulDef.push_forwardMat d0 settlementDate in
  let d0 := SimulDef.push_discountMat d0 settlementDate in
  let ost :=
    if Qeq_bool settlementDate exerciseDate
    then [Text "call "; Number strike; Text " "; Number exerciseDate]
    else [Text "call "; Number strike; Text " "; Number exerciseDate;
          Text " "; Number settlementDate] in
  make strike exerciseDate settlementDate timeline [d0] [ost].

(** The two-argument constructor settles on the exercise date *)
Definition European2 (strike : Q) (exerciseDate : Time) : t :=
  European strike exerciseDate exerciseDate.

Definition timeline (p : t) : list Time := myTimeline p.
Definition dataline (p : t) : list SimulDef.t := myDataline p.
Definition payoffLabels (p : t) : list label := myLabels p.

Definition payoffs (p : t) (path : Scenario) (payoffs : list T)
  : result (list T) :=
  s0 <- at_ path 0 ;;
  f <- at_ (Sample.forwards s0) 0 ;;
  d <- at_ (Sample.discounts s0) 0 ;;
  store payoffs 0
    (Tdiv (Tmul (Fin (max (f - myStrike p) 0)) (Fin d))
          (Fin (Sample.numeraire s0))).

End European.

(** ** Snap tolerances of the schedules, in years *)

Definition ONE_HOUR : Q := 0.000114469.
Definition ONE_DAY : Q := 0.003773585.

(** ** Up-and-out call with a smoothed, discretely monitored barrier *)

Module UOC.

Record t : Type := make {
  myStrike : Q;
  myBarrier : Q;
  myMaturity : Time;
  mySmooth : Q;
  myTimeline : list Time;
  myDataline : list SimulDef.t;
  myLabels : list label
}.

(** The barrier monitoring loop of the constructor:
    [while (myMaturity - t > ONE_HOUR) { push_back(t); t += monitorFreq; }].
    [fuel] bounds the number of iterations; [None] means the loop has not
    finished within [fuel] iterations. *)
Fixpoint monitoring (fuel : nat) (myMaturity monitorFreq : Time)
    (myTimeline : list Time) (t : Time) : option (list Time) :=
  if gt (myMaturity - t) ONE_HOUR then
    match fuel with
    | O => None
    | S fuel' =>
        monitoring fuel' myMaturity monitorFreq (myTimeline ++ [t])
                   (t + monitorFreq)
    end
  else Some myTimeline.

(** Entry [i] of the dataline, before the numeraire of the last step is
    switched on *)
Definition entry (myTimeline : list Time) (i : nat) : SimulDef.t :=
  let d := SimulDef.set_numeraire SimulDef.empty false in
  SimulDef.push_forwardMat d (nth i myTimeline 0).

(** [v.back().numeraire = true] *)
Fixpoint back_numeraire (v : list SimulDef.t) : list SimulDef.t :=
  match v with
  | [] => []
  | [d] => [SimulDef.set_numeraire d true]
  | d :: v' => d :: back_numeraire v'
  end.

(** Constructor: store data and build timeline.  [systemTime] is the
    global of that name. *)
Definition UOC (fuel : nat) (systemTime : Time)
    (strike barrier : Q) (maturity monitorFreq : Time) (smooth : Q)
  : option t :=
  let myTimeline := [systemTime] in
  let t := systemTime + monitorFreq in
  match monitoring fuel maturity monitorFreq myTimeline t with
  | None => None
  | Some myTimeline =>
      let myTimeline := myTimeline ++ [maturity] in
      let n := length myTimeline in
      let myDataline := back_numeraire (map (entry myTimeline) (seq 0 n)) in
      let ost := [Text "call "; Number maturity; Text " "; Number strike] in
      let label1 := ost in
      let ost := ost ++ [Text " up and out "; Number barrier;
                         Text " monitoring freq "; Number monitorFreq;
                         Text " smooth "; Number smooth] in
      let label0 := ost in
      Some (make strike barrier maturity smooth myTimeline myDataline
                 [label0; label1])
  end.

Definition timeline (p : t) : list Time := myTimeline p.
Definition dataline (p : t) : list SimulDef.t := myDataline p.
Definition payoffLabels (p : t) : list label := myLabels p.

(** The loop over the path that updates [alive]; the first branch is the
    [break] *)
Fixpoint monitor (myBarrier smooth twoSmooth barSmooth : Q)
    (path : Scenario) (alive : T) : result T :=
  match path with
  | [] => Ok alive
  | scen :: rest =>
      f <- at_ (Sample.forwards scen) 0 ;;
      if gt f barSmooth then Ok (Fin 0)
      else if gt f (myBarrier - smooth) then
        monitor myBarrier smooth twoSmooth barSmooth rest
                (Tmul alive (Tdiv (Fin (barSmooth - f)) (Fin twoSmooth)))
      else monitor myBarrier smooth twoSmooth barSmooth rest alive
  end.

(** The smoothing half-width, computed from the first forward *)
Definition smooth_of (p : t) (path : Scenario) : result Q :=
  s0 <- at_ path 0 ;;
  f0 <- at_ (Sample.forwards s0) 0 ;;
  Ok (f0 * mySmooth p).

(** The value of [alive] after the loop *)
Definition alive_of (p : t) (path : Scenario) : result T :=
  smooth <- smooth_of p path ;;
  let twoSmooth := 2 * smooth in
  let barSmooth := myBarrier p + smooth in
  monitor (myBarrier p) smooth twoSmooth barSmooth path (Fin 1).

Definition payoffs (p : t) (path : Scenario) (payoffs : list T)
  : result (list T) :=
  alive <- alive_of p path ;;
  sN <- back path ;;
  fN <- at_ (Sample.forwards sN) 0 ;;
  payoffs <- store payoffs 1
               (Tdiv (Fin (max (fN - myStrike p) 0))
                     (Fin (Sample.numeraire sN))) ;;
  p1 <- at_ payoffs 1 ;;
  store payoffs 0 (Tmul alive p1).

End UOC.

(** ** [std::map<Time, vector<double>>]

  An ordered map is the list of its entries in iteration order, that is
  by strictly ascending key. *)

Module TimeMap.

Definition t : Type := list (Time * list Q).

(** [m.insert({k, v})]: an entry whose key is already present is not
    replaced *)
Fixpoint insert (k : Time) (v : list Q) (m : t) : t :=
  match m with
  | [] => [(k, v)]
  | (k', v') :: m' =>
      if lt k k' then (k, v) :: m
      else if lt k' k then (k', v') :: insert k v m'
      else m
  end.

(** Construction from a sequence of entries, inserted in order *)
Definition of_list (l : list (Time * list Q)) : t :=
  fold_left (fun m kv => insert (fst kv) (snd kv) m) l [].

(** Keys strictly ascending *)
Definition wf (m : t) : Prop := StronglySorted Qlt (map fst m).

End TimeMap.

(** ** A strip of European calls sharing one path *)

Module Europeans.

Record t : Type := make {
  myMaturities : list Time;
  myStrikes : list (list Q);
  myDataline : list SimulDef.t;
  myLabels : list label
}.

Definition entry (myMaturities : list Time) (i : nat) : SimulDef.t :=
  let d := SimulDef.set_numeraire SimulDef.empty true in
  SimulDef.push_forwardMat d (nth i myMaturities 0).

(** Constructor: store data and build timeline *)
Definition Europeans (options : TimeMap.t) : t :=
  let n := length options in
  let myMaturities := map fst options in
  let myStrikes := map snd options in
  let myDataline := map (entry myMaturities) (seq 0 n) in
  let myLabels :=
    flat_map (fun option =>
      map (fun strike =>
             [Text "call "; Number (fst option); Text " "; Number strike])
          (snd option)) options in
  make myMaturities myStrikes myDataline myLabels.

Definition maturities (p : t) : list Time := myMaturities p.
Definition strikes (p : t) : list (list Q) := myStrikes p.
Definition timeline (p : t) : list Time := myMaturities p.
Definition dataline (p : t) : list SimulDef.t := myDataline p.
Definition payoffLabels (p : t) : list label := myLabels p.

(** [std::transform] of the strikes of one maturity into the buffer,
    starting at position [payoffIt] *)
Fixpoint transform (ks : list Q) (spot num : Q) (payoffs : list T)
    (payoffIt : nat) : result (list T) :=
  match ks with
  | [] => Ok payoffs
  | k :: ks' =>
      payoffs <- store payoffs payoffIt
                   (Tdiv (Fin (max (spot - k) 0)) (Fin num)) ;;
      transform ks' spot num payoffs (S payoffIt)
  end.

(** The loop over maturities, [todo] iterations from index [i] *)
Fixpoint loop (p : t) (path : Scenario) (todo i : nat) (payoffs : list T)
    (payoffIt : nat) : result (list T) :=
  match todo with
  | O => Ok payoffs
  | S todo' =>
      ks <- at_ (myStrikes p) i ;;
      s <- at_ path i ;;
      spot <- at_ (Sample.forwards s) 0 ;;
      payoffs <- transform ks spot (Sample.numeraire s) payoffs payoffIt ;;
      loop p path todo' (S i) payoffs (payoffIt + length ks)%nat
  end.

(** Payoffs, maturity major *)
Definition payoffs (p : t) (path : Scenario) (payoffs : list T)
  : result (list T) :=
  let numT := length (myMaturities p) in
  loop p path numT 0 payoffs 0.

End Europeans.

(** ** Bond paying a floating coupon contingent on the asset's performance *)

Module ContingentBond.

Record t : Type := make {
  myMaturity : Time;
  myCpn : Q;
  mySmooth : Q;
  myTimeline : list Time;
  myDataline : list SimulDef.t;
  myLabels : list label;
  myDt : list Q
}.

(** The payment schedule loop of the constructor.  The timeline holds the
    system date before the loop starts, so [myTimeline.back()] is always
    defined; the default of [last] is never used. *)
Fixpoint schedule (fuel : nat) (myMaturity payFreq : Time)
    (myTimeline : list Time) (myDt : list Q) (t : Time)
  : option (list Time * list Q) :=
  if gt (myMaturity - t) ONE_DAY then
    match fuel with
    | O => None
    | S fuel' =>
        let myDt := myDt ++ [t - last myTimeline 0] in
        schedule fuel' myMaturity payFreq (myTimeline ++ [t]) myDt
                 (t + payFreq)
    end
  else Some (myTimeline, myDt).

Definition entry (myTimeline : list Time) (n i : nat) : SimulDef.t :=
  let d := SimulDef.empty in
  let d := SimulDef.push_forwardMat d (nth i myTimeline 0) in
  let d :=
    if (i <? n - 1)%nat
    then SimulDef.push_liborDef d
           (RateDef.make (nth i myTimeline 0) (nth (i + 1) myTimeline 0)
                         "libor")
    else d in
  SimulDef.set_numeraire d (0 <? i)%nat.

(** Constructor: store data and build timeline *)
Definition ContingentBond (fuel : nat) (systemTime : Time)
    (maturity : Time) (cpn : Q) (payFreq : Time) (smooth : Q) : option t :=
  let myTimeline := [systemTime] in
  let t := systemTime + payFreq in
  match schedule fuel maturity payFreq myTimeline [] t with
  | None => None
  | Some (myTimeline, myDt) =>
      let myDt := myDt ++ [maturity - last myTimeline 0] in
      let myTimeline := myTimeline ++ [maturity] in
      let n := length myTimeline in
      let myDataline := map (entry myTimeline n) (seq 0 n) in
      let ost := [Text "contingent bond "; Number maturity; Text " ";
                  Number cpn] in
      Some (make maturity cpn smooth myTimeline myDataline [ost] myDt)
  end.

Definition timeline (p : t) : list Time := myTimeline p.
Definition dataline (p : t) : list SimulDef.t := myDataline p.
Definition payoffLabels (p : t) : list label := myLabels p.

(** The smoothed indicator of a positive performance over one period *)
Definition digital (smooth twoSmooth s0 s1 : Q) : T :=
  if gt (s1 - s0) smooth then Fin 1
  else if lt (s1 - s0) (- smooth) then Fin 0
  else Tdiv (Fin (s1 - s0 + smooth)) (Fin twoSmooth).

(** The loop over periods, [todo] iterations from index [i]; each one
    adds the coupon of period [i] to [payoffs[0]] *)
Fixpoint periods (p : t) (smooth twoSmooth : Q) (path : Scenario)
    (todo i : nat) (payoffs : list T) : result (list T) :=
  match todo with
  | O => Ok payoffs
  | S todo' =>
      start <- at_ path i ;;
      end_ <- at_ path (i + 1) ;;
      s0 <- at_ (Sample.forwards start) 0 ;;
      s1 <- at_ (Sample.forwards end_) 0 ;;
      let digital := digital smooth twoSmooth s0 s1 in
      libor <- at_ (Sample.libors start) 0 ;;
      dt <- at_ (myDt p) i ;;
      acc <- at_ payoffs 0 ;;
      payoffs <- store payoffs 0
        (Tadd acc
           (Tdiv (Tmul (Tmul digital (Tadd (Fin libor) (Fin (myCpn p))))
                       (Fin dt))
                 (Fin (Sample.numeraire end_)))) ;;
      periods p smooth twoSmooth path todo' (S i) payoffs
  end.

(** The smoothing half-width, computed from the first forward *)
Definition smooth_of (p : t) (path : Scenario) : result Q :=
  s0 <- at_ path 0 ;;
  f0 <- at_ (Sample.forwards s0) 0 ;;
  Ok (f0 * mySmooth p).

(** The path is indexed at 0 before [path.size() - 1] is computed, so on an
  empty path the behaviour is already undefined there and the wrap-around
  of the unsigned subtraction is never reached. *)
Definition payoffs (p : t) (path : Scenario) (payoffs : list T)
  : result (list T) :=
  smooth <- smooth_of p path ;;
  let twoSmooth := 2 * smooth in
  let n := (length path - 1)%nat in
  payoffs <- store payoffs 0 (Fin 0) ;;
  payoffs <- periods p smooth twoSmooth path n 0 payoffs ;;
  sN <- back path ;;
  acc <- at_ payoffs 0 ;;
  store payoffs 0 (Tadd acc (Tdiv (Fin 1) (Fin (Sample.numeraire sN)))).

End ContingentBond.

(** * Vocabulary of the statements *)


(** The lengths of the intervals between consecutive dates *)
Fixpoint intervals (l : list Time) : list Q :=
  match l with
  | [] => []
  | a :: l' =>
      match l' with
      | [] => []
      | b :: _ => (b - a) :: intervals l'
      end
  end.

(** Dates in strictly increasing order *)
Definition ascending (l : list Time) : Prop := StronglySorted Qlt l.

(** The first forward of every sample of a path *)
Definition spots (path : Scenario) : list Q :=
  map (fun s => hd 0 (Sample.forwards s)) path.

(** A sample holding exactly one forward *)
Definition one_forward (s : Sample.t) : Prop :=
  exists f, Sample.forwards s = [f].

(** The numeraire of every sample of a path *)
Definition numeraires (path : Scenario) : list Q :=
  map Sample.numeraire path.

(** The alive factor of the up-and-out call as its description has it:
    walking the forwards in time order, a forward above barrier + smooth
    knocks out and stops the walk, a forward above barrier - smooth
    multiplies by the ramp, any other forward changes nothing. *)
Fixpoint alive_walk (barrier smooth : Q) (fs : list Q) (alive : T) : T :=
  match fs with
  | [] => alive
  | f :: fs' =>
      if Qlt_le_dec (barrier + smooth) f then Fin 0
      else if Qlt_le_dec (barrier - smooth) f then
        alive_walk barrier smooth fs'
          (Tmul alive (Tdiv (Fin (barrier + smooth - f)) (Fin (2 * smooth))))
      else alive_walk barrier smooth fs' alive
  end.

(** The payoff of a call: max(forward - strike, 0) / numeraire *)
Definition call_payoff (forward strike numeraire : Q) : T :=
  Tdiv (Fin (Qmax (forward - strike) 0)) (Fin numeraire).

(** The payoffs of a strip of calls, maturity major: for each maturity in
    order, one value per strike of that maturity in order, computed from
    the sample of that maturity by [g forward strike numeraire]. *)
Fixpoint strip_with (g : Q -> Q -> Q -> T) (strikes : list (list Q))
    (path : Scenario) : list T :=
  match strikes, path with
  | ks :: strikes', s :: path' =>
      map (fun k => g (hd 0 (Sample.forwards s)) k (Sample.numeraire s)) ks
      ++ strip_with g strikes' path'
  | _, _ => []
  end.

Definition strip : list (list Q) -> Scenario -> list T :=
  strip_with call_payoff.

(** The number of strikes of a mapping *)
Definition width (options : TimeMap.t) : nat :=
  list_sum (map (fun kv => length (snd kv)) options).

(** Membership of a date in a list of dates *)
Definition has_date (t : Time) (l : list Time) : Prop := Exists (Qeq t) l.

(** A sample holding exactly one libor *)
Definition one_libor (s : Sample.t) : Prop :=
  exists l, Sample.libors s = [l].

(** The coupon of one period, between the samples [start] and [end_] and
    of coverage [dt]: digital * (libor + coupon) * dt / numeraire at the
    end of the period *)
Definition coupon (cpn smooth : Q) (start end_ : Sample.t) (dt : Q) : T :=
  let s0 := hd 0 (Sample.forwards start) in
  let s1 := hd 0 (Sample.forwards end_) in
  Tdiv (Tmul (Tmul (ContingentBond.digital smooth (2 * smooth) s0 s1)
                   (Fin (hd 0 (Sample.libors start) + cpn)))
             (Fin dt))
       (Fin (Sample.numeraire end_)).

(** The coupons of the periods of a path, one per pair of consecutive
    samples, with the coverages [dts] *)
Fixpoint coupons (cpn smooth : Q) (path : Scenario) (dts : list Q) : list T :=
  match path with
  | [] => []
  | start :: path' =>
      match path', dts with
      | end_ :: _, dt :: dts' =>
          coupon cpn smooth start end_ dt :: coupons cpn smooth path' dts'
      | _, _ => []
      end
  end.



(** The cells of the buffer of a strip, maturity major: each cell is a
    maturity, one of its strikes and the sample of that maturity. *)
Fixpoint cells (options : TimeMap.t) (path : Scenario)
  : list (Time * Q * Sample.t) :=
  match options, path with
  | (t, ks) :: options', s :: path' =>
      map (fun k => (t, k, s)) ks ++ cells options' path'
  | _, _ => []
  end.

(** The label of the call of maturity [t] and strike [k] in a strip *)
Definition call_label (t : Time) (k : Q) : label :=
  [Text "call "; Number t; Text " "; Number k].

(** Two samples agree on what a definition requests: the same forwards,
    discount factors and libors, and the same numeraire where the
    numeraire is requested. *)
Definition agrees (d : SimulDef.t) (s s' : Sample.t) : Prop :=
  Sample.forwards s = Sample.forwards s' /\
  Sample.discounts s = Sample.discounts s' /\
  Sample.libors s = Sample.libors s' /\
  (SimulDef.numeraire d = true -> Sample.numeraire s = Sample.numeraire s').

(** Two paths agree on what a dataline requests. *)
Fixpoint agree (dl : list SimulDef.t) (path path' : Scenario) : Prop :=
  match dl, path, path' with
  | [], [], [] => True
  | d :: dl', s :: p, s' :: p' => agrees d s s' /\ agree dl' p p'
  | _, _, _ => False
  end.

(** * Properties *)

(** ** Comparisons, [max] and the value type *)

Lemma gt_true (a b : Q) : gt a b = true <-> b < a.
Proof.
  unfold gt. rewrite negb_true_iff.
  split; intro H.
  - apply Qnot_le_lt. intro L. apply Qle_bool_iff in L. congruence.
  - destruct (Qle_bool a b) eqn:E; [|reflexivity].
    apply Qle_bool_iff in E. lra.
Qed.

Lemma gt_false (a b : Q) : gt a b = false <-> a <= b.
Proof.
  unfold gt. rewrite negb_false_iff. apply Qle_bool_iff.
Qed.

Lemma lt_true (a b : Q) : lt a b = true <-> a < b.
Proof. unfold lt. apply gt_true. Qed.

Lemma lt_false (a b : Q) : lt a b = false <-> b <= a.
Proof. unfold lt. apply gt_false. Qed.

Lemma max_Qmax (a b : Q) : max a b == Qmax a b.
Proof.
  unfold max. destruct (lt a b) eqn:E.
  - apply lt_true in E. destruct (Q.max_spec a b) as [[_ H]|[H1 H]]; lra.
  - apply lt_false in E. destruct (Q.max_spec a b) as [[H1 H]|[_ H]]; lra.
Qed.

Lemma Teq_refl (a : T) : Teq a a.
Proof. destruct a; simpl; [reflexivity | exact I]. Qed.


Lemma Teq_trans (a b c : T) : Teq a b -> Teq b c -> Teq a c.
Proof.
  destruct a, b, c; simpl; try tauto. intros H1 H2. rewrite H1. exact H2.
Qed.



Lemma Qeq_bool_compat (x y : Q) : x == y -> Qeq_bool x 0 = Qeq_bool y 0.
Proof.
  intro H. destruct (Qeq_bool x 0) eqn:Ex, (Qeq_bool y 0) eqn:Ey; try reflexivity.
  - apply Qeq_bool_iff in Ex. apply Qeq_bool_neq in Ey. exfalso. apply Ey. lra.
  - apply Qeq_bool_iff in Ey. apply Qeq_bool_neq in Ex. exfalso. apply Ex. lra.
Qed.

Lemma Tdiv_Teq (a a' b b' : T) : Teq a a' -> Teq b b' -> Teq (Tdiv a b) (Tdiv a' b').
Proof.
  destruct a as [x|], a' as [x'|], b as [y|], b' as [y'|]; simpl; try tauto.
  intros H1 H2. rewrite (Qeq_bool_compat y y' H2).
  destruct (Qeq_bool y' 0); simpl; [exact I|]. rewrite H1, H2. reflexivity.
Qed.

Lemma Veq_refl (v : list T) : Veq v v.
Proof. induction v; constructor; auto using Teq_refl. Qed.

Lemma Req_refl (r : result (list T)) : Req r r.
Proof. destruct r; simpl; auto using Veq_refl. Qed.



(** ** Vectors *)

Lemma store_length {A : Type} (v w : list A) (i : nat) (x : A) :
  store v i x = Ok w -> length w = length v.
Proof.
  revert w i. induction v as [|y v IH]; intros w i H; simpl in H.
  - discriminate.
  - destruct i.
    + inversion H. reflexivity.
    + destruct (store v i x) eqn:E; simpl in H; [|discriminate].
      inversion H. simpl. f_equal. eapply IH. exact E.
Qed.

Lemma store_Undefined {A : Type} (v : list A) (i : nat) (x : A) :
  store v i x = Undefined <-> (length v <= i)%nat.
Proof.
  revert i. induction v as [|y v IH]; intro i; simpl.
  - split; [lia | reflexivity].
  - destruct i.
    + split; [discriminate | lia].
    + specialize (IH i). destruct (store v i x); simpl.
      * split; [discriminate|]. intro H.
        assert (Hc : @Ok (list A) a = Undefined) by (apply IH; lia).
        discriminate Hc.
      * split; [|reflexivity]. intros _. apply le_n_S. apply IH. reflexivity.
Qed.

Lemma at_Undefined {A : Type} (v : list A) (i : nat) :
  at_ v i = Undefined <-> (length v <= i)%nat.
Proof.
  unfold at_. destruct (nth_error v i) eqn:E.
  - split; [discriminate|]. intro H. apply nth_error_None in H. congruence.
  - split; [|reflexivity]. intros _. apply nth_error_None. exact E.
Qed.

(** ** European *)

(** The paths aligned with a European are the one-node paths holding one
    forward and one discount factor. *)
Lemma European_aligned (strike : Q) (exerciseDate settlementDate : Time)
    (path : Scenario) :
  aligned (European.dataline (European.European strike exerciseDate settlementDate)) path = true
  <-> exists N F D, path = [Sample.make N [F] [D] []].
Proof.
  simpl. split.
  - destruct path as [|[N fs ds ls] [|s' path']]; try discriminate.
    + unfold answers; simpl. rewrite !andb_true_r, !andb_true_iff.
      intros [[H1 H2] H3].
      destruct fs as [|F [|? ?]], ds as [|D [|? ?]], ls; try discriminate.
      exists N, F, D. reflexivity.
    + rewrite andb_false_r. discriminate.
  - intros (N & F & D & ->). reflexivity.
Qed.

(** [payoffs] of a European looks only at the first sample of the path and
    writes only the first cell of the buffer. *)
Lemma European_payoffs_reads_first (p : European.t) (s : Sample.t)
    (rest : Scenario) (F D : Q) (fs ds : list Q) (b : T) (bs : list T) :
  Sample.forwards s = F :: fs -> Sample.discounts s = D :: ds ->
  European.payoffs p (s :: rest) (b :: bs)
  = Ok (Tdiv (Tmul (Fin (max (F - European.myStrike p) 0)) (Fin D))
             (Fin (Sample.numeraire s)) :: bs).
Proof.
  intros HF HD. unfold European.payoffs. simpl. rewrite HF, HD. reflexivity.
Qed.



Lemma European_payoffs_Undefined (p : European.t) (path : Scenario)
    (buf : list T) :
  European.payoffs p path buf = Undefined <->
  path = [] \/ (exists s rest, path = s :: rest /\
                 (Sample.forwards s = [] \/ Sample.discounts s = []))
  \/ buf = [].
Proof.
  unfold European.payoffs. destruct path as [|s rest]; simpl.
  - split; [auto | reflexivity].
  - destruct (Sample.forwards s) as [|F fs] eqn:HF; simpl.
    + split; [|reflexivity]. intros _. right. left. exists s, rest. auto.
    + destruct (Sample.discounts s) as [|D ds] eqn:HD; simpl.
      * split; [|reflexivity]. intros _. right. left. exists s, rest. auto.
      * destruct buf as [|b bs]; simpl.
        -- split; auto.
        -- split; [discriminate|].
           intros [H|[(s' & rest' & H & [H'|H'])|H]]; try discriminate;
             inversion H; subst; congruence.
Qed.

(** ** Schedules *)







Lemma intervals_snoc (tl : list Time) (t : Time) :
  tl <> [] -> intervals (tl ++ [t]) = intervals tl ++ [t - last tl 0].
Proof.
  induction tl as [|a tl IH]; intro Hne; [congruence|].
  destruct tl as [|b tl]; [reflexivity|].
  change (intervals ((a :: b :: tl) ++ [t]))
    with ((b - a) :: intervals ((b :: tl) ++ [t])).
  rewrite IH by discriminate. reflexivity.
Qed.

Lemma intervals_length (tl : list Time) :
  length (intervals tl) = (length tl - 1)%nat.
Proof.
  induction tl as [|a tl IH]; [reflexivity|].
  destruct tl as [|b tl]; [reflexivity|].
  change (intervals (a :: b :: tl)) with ((b - a) :: intervals (b :: tl)).
  cbn [length] in *. lia.
Qed.

Lemma intervals_at (tl : list Time) :
  forall (i : nat) (a b : Time),
    at_ tl i = Ok a -> at_ tl (S i) = Ok b -> at_ (intervals tl) i = Ok (b - a).
Proof.
  induction tl as [|x tl IH]; intros i a b Ha Hb; [discriminate|].
  destruct tl as [|y tl]; [destruct i; discriminate|].
  change (intervals (x :: y :: tl)) with ((y - x) :: intervals (y :: tl)).
  destruct i as [|i].
  - unfold at_ in *. simpl in *. congruence.
  - apply (IH i a b); assumption.
Qed.

(** The schedule loop keeps one coverage per interval of the timeline. *)
Lemma schedule_invariant (maturity payFreq : Time) (fuel : nat) :
  forall (t : Time) (tl : list Time) (dt : list Q) (tl' : list Time) (dt' : list Q),
    tl <> [] -> dt = intervals tl ->
    ContingentBond.schedule fuel maturity payFreq tl dt t = Some (tl', dt') ->
    tl' <> [] /\ dt' = intervals tl'.
Proof.
  induction fuel as [|fuel IH]; intros t tl dt tl' dt' Hne Hdt H;
    cbn [ContingentBond.schedule] in H;
    destruct (gt (maturity - t) ONE_DAY); try discriminate;
    try (inversion H; subst; split; [assumption|reflexivity]).
  apply IH in H; [exact H | |].
  - destruct tl; discriminate.
  - rewrite intervals_snoc by exact Hne. rewrite Hdt. reflexivity.
Qed.










(** C10. Every constructed ContingentBond holds one coverage per interval
    of its timeline: the timeline has exactly one date more than [myDt]
    has coverages, and [myDt[i]] is [timeline[i+1] - timeline[i]]; so the
    period [i] of [payoffs] accrues its coupon over exactly that length. *)
Theorem ContingentBond_coverages (fuel : nat)
    (systemTime maturity cpn payFreq smooth : Q) (p : ContingentBond.t) :
  ContingentBond.ContingentBond fuel systemTime maturity cpn payFreq smooth = Some p ->
  length (ContingentBond.timeline p) = S (length (ContingentBond.myDt p)) /\
  (forall i a b,
     at_ (ContingentBond.timeline p) i = Ok a ->
     at_ (ContingentBond.timeline p) (S i) = Ok b ->
     at_ (ContingentBond.myDt p) i = Ok (b - a)) /\
  (forall i a b w twoW path todo buf,
     at_ (ContingentBond.timeline p) i = Ok a ->
     at_ (ContingentBond.timeline p) (S i) = Ok b ->
     ContingentBond.periods p w twoW path (S todo) i buf
     = (start <- at_ path i ;;
        end_ <- at_ path (i + 1) ;;
        s0 <- at_ (Sample.forwards start) 0 ;;
        s1 <- at_ (Sample.forwards end_) 0 ;;
        libor <- at_ (Sample.libors start) 0 ;;
        acc <- at_ buf 0 ;;
        buf' <- store buf 0
          (Tadd acc
             (Tdiv (Tmul (Tmul (ContingentBond.digital w twoW s0 s1)
                               (Tadd (Fin libor) (Fin cpn)))
                         (Fin (b - a)))
                   (Fin (Sample.numeraire end_)))) ;;
        ContingentBond.periods p w twoW path todo (S i) buf')).
Proof.
  intro H. unfold ContingentBond.ContingentBond in H.
  destruct (ContingentBond.schedule fuel maturity payFreq [systemTime] []
              (systemTime + payFreq)) as [[tl dt]|] eqn:E; [|discriminate].
  apply schedule_invariant in E; [|discriminate|reflexivity].
  destruct E as [Hne ->]. inversion H; subst; clear H.
  unfold ContingentBond.timeline. cbn [ContingentBond.myDt ContingentBond.myTimeline ContingentBond.myCpn].
  rewrite <- (intervals_snoc tl maturity Hne).
  split; [rewrite intervals_length, length_app; cbn [length]; lia|].
  split; [apply intervals_at|].
  intros i a b w twoW path todo buf Ha Hb.
  cbn [ContingentBond.periods ContingentBond.myDt ContingentBond.myCpn].
  rewrite (intervals_at _ i a b Ha Hb).
  destruct (at_ path i) as [start|]; [|reflexivity].
  destruct (at_ path (i + 1)) as [end_|]; [|reflexivity].
  cbn [bind].
  destruct (at_ (Sample.forwards start) 0) as [s0|]; [|reflexivity].
  destruct (at_ (Sample.forwards end_) 0) as [s1|]; [|reflexivity].
  reflexivity.
Qed.

Lemma ContingentBond_coverages_witness :
  exists p,
    ContingentBond.ContingentBond 10 0 1 (1 # 20) (1 # 2) (1 # 10) = Some p /\
    length (ContingentBond.timeline p) = S (length (ContingentBond.myDt p)).
Proof.
  eexists. split; [reflexivity|].
  apply (ContingentBond_coverages 10 0 1 (1 # 20) (1 # 2) (1 # 10)).
  reflexivity.
Defined.




(** ** Aligned paths *)

Lemma aligned_length (dl : list SimulDef.t) :
  forall path, aligned dl path = true -> length path = length dl.
Proof.
  induction dl as [|d dl IH]; intros [|s path] H; simpl in H; try discriminate.
  - reflexivity.
  - apply andb_true_iff in H. destruct H as [_ H]. simpl. f_equal. apply IH, H.
Qed.

Lemma aligned_one_forward (dl : list SimulDef.t) :
  Forall (fun d => length (SimulDef.forwardMats d) = 1%nat) dl ->
  forall path, aligned dl path = true -> Forall one_forward path.
Proof.
  induction 1 as [|d dl Hd Hdl IH]; intros [|s path] H; simpl in H;
    try discriminate; constructor.
  - apply andb_true_iff in H. destruct H as [H _]. unfold answers in H.
    rewrite !andb_true_iff in H. destruct H as [[H _] _].
    apply Nat.eqb_eq in H. rewrite Hd in H.
    destruct (Sample.forwards s) as [|f [|? ?]] eqn:E; try discriminate.
    exists f. exact E.
  - apply andb_true_iff in H. destruct H as [_ H]. apply IH, H.
Qed.

Lemma back_numeraire_length (v : list SimulDef.t) :
  length (UOC.back_numeraire v) = length v.
Proof.
  induction v as [|d v IH]; [reflexivity|].
  destruct v as [|d' v]; [reflexivity|].
  change (UOC.back_numeraire (d :: d' :: v)) with (d :: UOC.back_numeraire (d' :: v)).
  cbn [length] in *. rewrite IH. reflexivity.
Qed.

Lemma back_numeraire_forwardMats (P : list Time -> Prop) (v : list SimulDef.t) :
  Forall (fun d => P (SimulDef.forwardMats d)) v ->
  Forall (fun d => P (SimulDef.forwardMats d)) (UOC.back_numeraire v).
Proof.
  induction v as [|d v IH]; intro H; [constructor|].
  inversion H as [|? ? Hd Hv]; subst.
  destruct v as [|d' v].
  - constructor; [exact Hd|constructor].
  - change (UOC.back_numeraire (d :: d' :: v)) with (d :: UOC.back_numeraire (d' :: v)).
    constructor; [exact Hd|apply IH, Hv].
Qed.

(** What the constructor of UOC stores *)
Lemma UOC_fields (fuel : nat) (systemTime strike barrier maturity freq smooth : Q)
    (p : UOC.t) :
  UOC.UOC fuel systemTime strike barrier maturity freq smooth = Some p ->
  UOC.myStrike p = strike /\ UOC.myBarrier p = barrier /\
  UOC.myMaturity p = maturity /\ UOC.mySmooth p = smooth /\
  length (UOC.dataline p) = length (UOC.timeline p) /\
  (2 <= length (UOC.timeline p))%nat /\
  Forall (fun d => length (SimulDef.forwardMats d) = 1%nat) (UOC.dataline p) /\
  length (UOC.payoffLabels p) = 2%nat.
Proof.
  unfold UOC.UOC. intro H.
  destruct (UOC.monitoring fuel maturity freq [systemTime] (systemTime + freq))
    as [tl|] eqn:E; [|discriminate].
  inversion H; subst; clear H.
  unfold UOC.dataline, UOC.timeline, UOC.payoffLabels. cbn -[UOC.back_numeraire].
  repeat split.
  - rewrite back_numeraire_length, length_map, length_seq. reflexivity.
  - assert (Hm : forall fuel t tl tl', UOC.monitoring fuel maturity freq tl t = Some tl' ->
                                       (length tl <= length tl')%nat).
    { clear. induction fuel as [|fuel IH]; intros t tl tl' H; cbn [UOC.monitoring] in H;
        destruct (gt (maturity - t) ONE_HOUR); try discriminate;
        try (inversion H; subst; lia).
      apply IH in H. rewrite length_app in H. simpl in H. lia. }
    apply Hm in E. rewrite length_app. simpl in *. lia.
  - apply (back_numeraire_forwardMats (fun l => length l = 1%nat)).
    apply Forall_forall. intros d Hd. apply in_map_iff in Hd.
    destruct Hd as (i & <- & _). reflexivity.
Qed.

(** ** The alive factor of the up-and-out call *)

Lemma monitor_walk (barrier smooth : Q) (path : Scenario) :
  Forall one_forward path ->
  forall alive,
    UOC.monitor barrier smooth (2 * smooth) (barrier + smooth) path alive
    = Ok (alive_walk barrier smooth (spots path) alive).
Proof.
  induction 1 as [|s path [f Hf] Hpath IH]; intro alive; [reflexivity|].
  cbn [UOC.monitor spots map alive_walk]. rewrite Hf. cbn [at_ nth_error bind hd].
  destruct (Qlt_le_dec (barrier + smooth) f) as [Hb|Hb].
  - rewrite (proj2 (gt_true _ _) Hb). reflexivity.
  - rewrite (proj2 (gt_false _ _) Hb).
    destruct (Qlt_le_dec (barrier - smooth) f) as [Hr|Hr].
    + rewrite (proj2 (gt_true _ _) Hr). apply IH.
    + rewrite (proj2 (gt_false _ _) Hr). apply IH.
Qed.


(** Forwards at or below barrier - smooth leave the factor unchanged. *)
Lemma alive_walk_quiet (barrier smooth : Q) (fs : list Q) :
  0 <= smooth -> Forall (fun f => f <= barrier - smooth) fs ->
  forall rest alive,
    alive_walk barrier smooth (fs ++ rest) alive = alive_walk barrier smooth rest alive.
Proof.
  intros Hw. induction 1 as [|f fs Hf Hfs IH]; intros rest alive; [reflexivity|].
  cbn [app alive_walk].
  destruct (Qlt_le_dec (barrier + smooth) f); [lra|].
  destruct (Qlt_le_dec (barrier - smooth) f); [lra|]. apply IH.
Qed.

Lemma back_last {A : Type} (v : list A) (d : A) :
  v <> [] -> back v = Ok (last v d).
Proof.
  unfold back, at_. induction v as [|a v IH]; intro H; [congruence|].
  destruct v as [|b v]; [reflexivity|].
  change (last (a :: b :: v) d) with (last (b :: v) d).
  rewrite <- IH by discriminate.
  replace (length (a :: b :: v) - 1)%nat with (S (length (b :: v) - 1))
    by (cbn [length]; lia).
  reflexivity.
Qed.

Lemma last_map {A B : Type} (g : A -> B) (v : list A) (d : A) (e : B) :
  v <> [] -> last (map g v) e = g (last v d).
Proof.
  induction v as [|a v IH]; intro H; [congruence|].
  destruct v as [|b v]; [reflexivity|].
  change (last (map g (a :: b :: v)) e) with (last (map g (b :: v)) e).
  rewrite IH by discriminate. reflexivity.
Qed.

Lemma last_In {A : Type} (v : list A) (d : A) : v <> [] -> In (last v d) v.
Proof.
  induction v as [|a v IH]; intro H; [congruence|].
  destruct v as [|b v]; [left; reflexivity|].
  right. apply IH. discriminate.
Qed.

(** [payoffs] of an up-and-out call, given the alive factor and the last
    sample of the path; only the first two cells are written. *)
Lemma UOC_payoffs_cells (p : UOC.t) (path : Scenario) (alive : T)
    (sN : Sample.t) (fN : Q) (fs : list Q) (b0 b1 : T) (bs : list T) :
  UOC.alive_of p path = Ok alive -> back path = Ok sN ->
  Sample.forwards sN = fN :: fs ->
  UOC.payoffs p path (b0 :: b1 :: bs)
  = Ok (Tmul alive (Tdiv (Fin (max (fN - UOC.myStrike p) 0)) (Fin (Sample.numeraire sN)))
        :: Tdiv (Fin (max (fN - UOC.myStrike p) 0)) (Fin (Sample.numeraire sN))
        :: bs).
Proof.
  intros Ha Hb Hf. unfold UOC.payoffs. rewrite Ha, Hb. cbn [bind].
  rewrite Hf. reflexivity.
Qed.

Lemma call_payoff_max (f k n : Q) :
  Teq (Tdiv (Fin (max (f - k) 0)) (Fin n)) (call_payoff f k n).
Proof.
  unfold call_payoff. apply Tdiv_Teq; [|apply Teq_refl]. apply max_Qmax.
Qed.

(** On an aligned path, [payoffs] of a constructed up-and-out call. *)
Lemma UOC_payoffs_aligned (fuel : nat)
    (systemTime strike barrier maturity freq smooth : Q) (p : UOC.t)
    (path : Scenario) (b0 b1 : T) (bs : list T) :
  UOC.UOC fuel systemTime strike barrier maturity freq smooth = Some p ->
  aligned (UOC.dataline p) path = true ->
  let w := hd 0 (spots path) * smooth in
  let alive := alive_walk barrier w (spots path) (Fin 1) in
  let fN := last (spots path) 0 in
  let nN := last (numeraires path) 0 in
  UOC.smooth_of p path = Ok w /\
  UOC.alive_of p path = Ok alive /\
  UOC.payoffs p path (b0 :: b1 :: bs)
  = Ok (Tmul alive (Tdiv (Fin (max (fN - strike) 0)) (Fin nN))
        :: Tdiv (Fin (max (fN - strike) 0)) (Fin nN) :: bs).
Proof.
  intros Hp Hal.
  destruct (UOC_fields _ _ _ _ _ _ _ _ Hp) as (HK & HB & _ & Hs & Hlen & H2 & Hfw & _).
  pose proof (aligned_length _ _ Hal) as Hl.
  pose proof (aligned_one_forward _ Hfw _ Hal) as Hone.
  destruct path as [|s0 rest]; [simpl in Hl; lia|].
  intros w alive fN nN.
  assert (Hw : UOC.smooth_of p (s0 :: rest) = Ok w).
  { inversion Hone as [|? ? [f0 Hf0] _]. unfold UOC.smooth_of, w.
    cbn [at_ nth_error bind spots map hd]. rewrite Hf0, Hs. reflexivity. }
  assert (Ha : UOC.alive_of p (s0 :: rest) = Ok alive).
  { unfold UOC.alive_of. rewrite Hw. cbn [bind]. rewrite HB.
    apply monitor_walk. exact Hone. }
  split; [exact Hw|]. split; [exact Ha|].
  set (d := Sample.make 0 [] [] []).
  assert (Hin : one_forward (last (s0 :: rest) d)).
  { eapply Forall_forall; [exact Hone|]. apply last_In. discriminate. }
  destruct Hin as [f Hf].
  assert (Hne : s0 :: rest <> []) by discriminate.
  rewrite (UOC_payoffs_cells p _ alive (last (s0 :: rest) d) f [] b0 b1 bs
             Ha (back_last _ d Hne) Hf).
  rewrite HK.
  assert (HfN : f = fN).
  { unfold fN, spots. rewrite (last_map _ _ d 0 Hne), Hf. reflexivity. }
  assert (HnN : Sample.numeraire (last (s0 :: rest) d) = nN).
  { unfold nN, numeraires. rewrite (last_map _ _ d 0 Hne). reflexivity. }
  rewrite HfN, HnN. reflexivity.
Qed.






(** C6. On every path aligned with a constructed up-and-out call, the
    second cell written by [UOC::payoffs] holds the value that the
    European call with the same strike and maturity writes on the one-node
    path made of the last forward, a discount factor of 1 and the last
    numeraire: max(forward_last - strike, 0) / numeraire_last. *)
Theorem UOC_vanilla_is_European (fuel : nat)
    (systemTime strike barrier maturity freq smooth : Q) (p : UOC.t)
    (path : Scenario) (b0 b1 b : T) :
  UOC.UOC fuel systemTime strike barrier maturity freq smooth = Some p ->
  aligned (UOC.dataline p) path = true ->
  let fN := last (spots path) 0 in
  let nN := last (numeraires path) 0 in
  let european := European.European2 (UOC.myStrike p) (UOC.myMaturity p) in
  let node := [Sample.make nN [fN] [1] []] in
  European.timeline european = [maturity] /\
  European.myStrike european = strike /\
  aligned (European.dataline european) node = true /\
  exists v0 v1 e,
    UOC.payoffs p path [b0; b1] = Ok [v0; v1] /\
    European.payoffs european node [b] = Ok [e] /\
    Teq v1 e /\
    Teq v1 (call_payoff fN strike nN).
Proof.
  intros Hp Hal fN nN european node.
  destruct (UOC_fields _ _ _ _ _ _ _ _ Hp) as (HK & _ & HM & _).
  destruct (UOC_payoffs_aligned fuel _ _ _ _ _ _ p path b0 b1 [] Hp Hal) as (_ & _ & Hpay).
  unfold european. rewrite HK, HM.
  split; [reflexivity|]. split; [reflexivity|]. split; [reflexivity|].
  eexists _, _, (Tdiv (Tmul (Fin (max (fN - strike) 0)) (Fin 1)) (Fin nN)).
  split; [exact Hpay|]. split; [reflexivity|].
  fold fN nN. split.
  - apply Tdiv_Teq; [|apply Teq_refl]. unfold Tmul, lift2, Teq.
    generalize (max (fN - strike) 0). intro x. lra.
  - apply call_payoff_max.
Qed.

Lemma UOC_vanilla_is_European_witness :
  exists p v0 v1 e,
    UOC.UOC 0 0 90 100 1 1 (1 # 10) = Some p /\
    UOC.payoffs p [Sample.make 1 [90] [] []; Sample.make 2 [100] [] []] [Fin 0; Fin 0]
    = Ok [v0; v1] /\
    European.payoffs (European.European2 (UOC.myStrike p) (UOC.myMaturity p))
      [Sample.make 2 [100] [1] []] [Fin 0] = Ok [e] /\
    Teq v1 e.
Proof.
  eexists.
  destruct (UOC_vanilla_is_European 0 0 90 100 1 1 (1 # 10) _
              [Sample.make 1 [90] [] []; Sample.make 2 [100] [] []]
              (Fin 0) (Fin 0) (Fin 0) eq_refl eq_refl)
    as (_ & _ & _ & v0 & v1 & e & H1 & H2 & H3 & _).
  exists v0, v1, e. split; [reflexivity|]. split; [exact H1|]. split; [exact H2|exact H3].
Defined.

(** ** Ordered maps *)

Lemma insert_Forall (P : Time -> Prop) (k : Time) (v : list Q) (m : TimeMap.t) :
  P k -> Forall P (map fst m) -> Forall P (map fst (TimeMap.insert k v m)).
Proof.
  intros Hk. induction m as [|[k' v'] m IH]; intro H; cbn [TimeMap.insert].
  - constructor; [exact Hk|constructor].
  - destruct (lt k k'); [constructor; assumption|].
    destruct (lt k' k); [|exact H].
    inversion H; subst. constructor; [assumption|]. apply IH. assumption.
Qed.

Lemma insert_wf (k : Time) (v : list Q) (m : TimeMap.t) :
  TimeMap.wf m -> TimeMap.wf (TimeMap.insert k v m).
Proof.
  unfold TimeMap.wf. induction m as [|[k' v'] m IH]; intro H; cbn [TimeMap.insert].
  - constructor; constructor.
  - inversion H as [|? ? Hs Hall]; subst.
    destruct (lt k k') eqn:E1.
    + apply lt_true in E1. constructor; [exact H|].
      constructor; [exact E1|].
      eapply Forall_impl; [|exact Hall]. intros x Hx. simpl in *. lra.
    + destruct (lt k' k) eqn:E2; [|exact H].
      apply lt_true in E2. cbn [map fst]. constructor; [apply IH, Hs|].
      apply insert_Forall; assumption.
Qed.

Lemma insert_has_date (t k : Time) (v : list Q) (m : TimeMap.t) :
  has_date t (map fst (TimeMap.insert k v m)) <-> t == k \/ has_date t (map fst m).
Proof.
  unfold has_date. induction m as [|[k' v'] m IH]; cbn [TimeMap.insert].
  - cbn [map fst]. rewrite Exists_cons. reflexivity.
  - destruct (lt k k') eqn:E1.
    + change (map fst ((k, v) :: (k', v') :: m)) with (k :: map fst ((k', v') :: m)).
      rewrite Exists_cons. reflexivity.
    + destruct (lt k' k) eqn:E2.
      * cbn [map fst]. rewrite !Exists_cons, IH. tauto.
      * apply lt_false in E1. apply lt_false in E2.
        cbn [map fst]. rewrite Exists_cons. split; [tauto|].
        intros [H|H]; [|exact H]. left. lra.
Qed.

Lemma of_list_spec (l : list (Time * list Q)) :
  forall m, TimeMap.wf m ->
    TimeMap.wf (fold_left (fun m kv => TimeMap.insert (fst kv) (snd kv) m) l m) /\
    forall t,
      has_date t (map fst (fold_left (fun m kv => TimeMap.insert (fst kv) (snd kv) m) l m))
      <-> has_date t (map fst l) \/ has_date t (map fst m).
Proof.
  induction l as [|[k v] l IH]; intros m Hm; cbn [fold_left].
  - split; [exact Hm|]. intro t. unfold has_date at 2. cbn [map].
    rewrite Exists_nil. tauto.
  - destruct (IH (TimeMap.insert k v m) (insert_wf k v m Hm)) as [Hwf Hkeys].
    split; [exact Hwf|]. intro t. rewrite Hkeys, insert_has_date.
    unfold has_date at 3. cbn [map fst]. rewrite Exists_cons. cbn [fst]. tauto.
Qed.

(** ** Europeans *)

Lemma store_app {A : Type} (pre : list A) (c : A) (rest : list A) (x : A) :
  store (pre ++ c :: rest) (length pre) x = Ok (pre ++ x :: rest).
Proof.
  induction pre as [|a pre IH]; [reflexivity|].
  cbn [app length store]. rewrite IH. reflexivity.
Qed.

Lemma at_skipn {A : Type} (v : list A) :
  forall (i : nat) (x : A) (r : list A),
    skipn i v = x :: r -> at_ v i = Ok x /\ skipn (S i) v = r.
Proof.
  induction v as [|a v IH]; intros i x r H.
  - destruct i; discriminate.
  - destruct i as [|i].
    + inversion H. split; reflexivity.
    + apply (IH i x r). exact H.
Qed.

Lemma transform_writes (ks : list Q) (spot num : Q) :
  forall (pre cells post : list T),
    length cells = length ks ->
    Europeans.transform ks spot num (pre ++ cells ++ post) (length pre)
    = Ok (pre ++ map (fun k => Tdiv (Fin (max (spot - k) 0)) (Fin num)) ks ++ post).
Proof.
  induction ks as [|k ks IH]; intros pre cells post Hlen.
  - destruct cells; [reflexivity|discriminate].
  - destruct cells as [|c cells]; [discriminate|].
    cbn [Europeans.transform app map]. rewrite store_app. cbn [bind].
    replace (S (length pre)) with (length (pre ++ [Tdiv (Fin (max (spot - k) 0)) (Fin num)]))
      by (rewrite length_app; simpl; lia).
    change (pre ++ ?x :: cells ++ post) with (pre ++ [x] ++ cells ++ post).
    rewrite app_assoc, IH by (simpl in Hlen; lia).
    rewrite <- app_assoc. reflexivity.
Qed.

Lemma loop_writes (p : Europeans.t) (path : Scenario) (stodo : list (list Q)) :
  forall (i : nat) (ptodo : Scenario) (pre cells post : list T),
    skipn i (Europeans.myStrikes p) = stodo ->
    skipn i path = ptodo ->
    length ptodo = length stodo ->
    Forall one_forward ptodo ->
    length cells = list_sum (map (@length Q) stodo) ->
    Europeans.loop p path (length stodo) i (pre ++ cells ++ post) (length pre)
    = Ok (pre ++ strip_with (fun f k n => Tdiv (Fin (max (f - k) 0)) (Fin n)) stodo ptodo
              ++ post).
Proof.
  induction stodo as [|ks stodo IH]; intros i ptodo pre cells post Hs Hp Hlen Hone Hc.
  - destruct cells; [reflexivity|discriminate].
  - destruct ptodo as [|s ptodo]; [discriminate|].
    destruct (at_skipn _ _ _ _ Hs) as [Hks Hs'].
    destruct (at_skipn _ _ _ _ Hp) as [Hsi Hp'].
    inversion Hone as [|? ? [f Hf] Hone'].
    cbn [length Europeans.loop strip_with]. rewrite Hks, Hsi. cbn [bind].
    rewrite Hf. cbn [at_ nth_error bind hd].
    change (list_sum (map (@length Q) (ks :: stodo)))
      with (length ks + list_sum (map (@length Q) stodo))%nat in Hc.
    rewrite <- (firstn_skipn (length ks) cells), <- app_assoc.
    rewrite transform_writes by (rewrite length_firstn; lia).
    cbn [bind].
    replace (length pre + length ks)%nat
      with (length (pre ++ map (fun k => Tdiv (Fin (max (f - k) 0)) (Fin (Sample.numeraire s))) ks))
      by (rewrite length_app, length_map; reflexivity).
    rewrite app_assoc.
    rewrite (IH (S i) ptodo).
    + rewrite <- !app_assoc. reflexivity.
    + exact Hs'.
    + exact Hp'.
    + simpl in Hlen. lia.
    + exact Hone'.
    + rewrite length_skipn. lia.
Qed.

Lemma strip_with_Veq (g g' : Q -> Q -> Q -> T) :
  (forall f k n, Teq (g f k n) (g' f k n)) ->
  forall strikes path, Veq (strip_with g strikes path) (strip_with g' strikes path).
Proof.
  intros Hg. induction strikes as [|ks strikes IH]; intros [|s path];
    cbn [strip_with]; try constructor.
  apply Forall2_app; [|apply IH].
  induction ks; cbn [map]; constructor; auto.
Qed.

Lemma Europeans_dataline_forwards (options : TimeMap.t) :
  Forall (fun d => length (SimulDef.forwardMats d) = 1%nat)
         (Europeans.dataline (Europeans.Europeans options)).
Proof.
  unfold Europeans.dataline, Europeans.Europeans. cbn [Europeans.myDataline].
  apply Forall_forall. intros d Hd. apply in_map_iff in Hd.
  destruct Hd as (i & <- & _). reflexivity.
Qed.

Lemma Europeans_labels_width (options : TimeMap.t) :
  length (Europeans.payoffLabels (Europeans.Europeans options)) = width options.
Proof.
  unfold Europeans.payoffLabels, Europeans.Europeans, width.
  cbn [Europeans.myLabels].
  rewrite length_flat_map. f_equal. apply map_ext.
  intro kv. apply length_map.
Qed.

Lemma strip_with_length (g : Q -> Q -> Q -> T) (strikes : list (list Q)) :
  forall path, length path = length strikes ->
    length (strip_with g strikes path) = list_sum (map (@length Q) strikes).
Proof.
  induction strikes as [|ks strikes IH]; intros [|s path] H; try discriminate;
    [reflexivity|].
  cbn [strip_with]. rewrite length_app, length_map, IH by (simpl in H; lia).
  reflexivity.
Qed.

Lemma Europeans_aligned_length (options : TimeMap.t) (path : Scenario) :
  aligned (Europeans.dataline (Europeans.Europeans options)) path = true ->
  length path = length (map snd options).
Proof.
  intro Hal. rewrite (aligned_length _ _ Hal).
  unfold Europeans.dataline, Europeans.Europeans.
  cbn [Europeans.myDataline]. rewrite !length_map, length_seq. reflexivity.
Qed.

(** On an aligned path, [payoffs] fills the first cells of the buffer, as
    many as there are labels, and leaves the cells after them unchanged. *)
Lemma Europeans_payoffs_cells (options : TimeMap.t) (path : Scenario)
    (cells post : list T) :
  aligned (Europeans.dataline (Europeans.Europeans options)) path = true ->
  length cells = length (Europeans.payoffLabels (Europeans.Europeans options)) ->
  Europeans.payoffs (Europeans.Europeans options) path (cells ++ post)
  = Ok (strip_with (fun f k n => Tdiv (Fin (max (f - k) 0)) (Fin n))
                   (map snd options) path ++ post).
Proof.
  intros Hal Hbuf.
  pose proof (aligned_one_forward _ (Europeans_dataline_forwards options) _ Hal) as Hone.
  rewrite Europeans_labels_width in Hbuf.
  unfold Europeans.payoffs.
  replace (length (Europeans.myMaturities (Europeans.Europeans options)))
    with (length (map snd options))
    by (cbn [Europeans.Europeans Europeans.myMaturities]; rewrite !length_map; reflexivity).
  apply (loop_writes (Europeans.Europeans options) path (map snd options)
           0 path [] cells post).
  - reflexivity.
  - reflexivity.
  - apply Europeans_aligned_length. exact Hal.
  - exact Hone.
  - rewrite Hbuf. unfold width. rewrite map_map. reflexivity.
Qed.

(** On an aligned path and a buffer of the width of the labels, [payoffs]
    fills the buffer with the strip. *)
Lemma Europeans_payoffs_strip (options : TimeMap.t) (path : Scenario)
    (buf : list T) :
  aligned (Europeans.dataline (Europeans.Europeans options)) path = true ->
  length buf = length (Europeans.payoffLabels (Europeans.Europeans options)) ->
  Req (Europeans.payoffs (Europeans.Europeans options) path buf)
      (Ok (strip (map snd options) path)).
Proof.
  intros Hal Hbuf.
  pose proof (Europeans_payoffs_cells options path buf [] Hal Hbuf) as H.
  rewrite !app_nil_r in H. rewrite H.
  unfold Req, strip. apply strip_with_Veq.
  intros f k n. apply call_payoff_max.
Qed.

Lemma two_maturities (T1 T2 : Time) (ks1 ks2 : list Q) :
  T1 < T2 ->
  TimeMap.of_list [(T1, ks1); (T2, ks2)] = [(T1, ks1); (T2, ks2)] /\
  TimeMap.of_list [(T2, ks2); (T1, ks1)] = [(T1, ks1); (T2, ks2)].
Proof.
  intro H. unfold TimeMap.of_list. cbn [fold_left TimeMap.insert fst snd].
  rewrite (proj2 (lt_true T1 T2) H).
  assert (H' : T1 <= T2) by lra.
  rewrite (proj2 (lt_false T2 T1) H'). split; reflexivity.
Qed.

(** C4. For every Europeans built from a mapping given by its entries:
    the timeline is strictly ascending and holds exactly the maturities of
    the entries; the labels are as many as the strikes of the mapping; on
    an aligned path and a buffer of that width, [payoffs] fills the buffer
    maturity major, for each maturity in ascending order and each of its
    strikes in the order supplied, with max(forward_t - k, 0) /
    numeraire_t.  For the maturities T1 < T2 with strikes 90, 100 at T1
    and 95 at T2, in whichever order the two entries are supplied, the
    width is 3 and the cells are T1/90, T1/100, T2/95 in that order. *)
Theorem Europeans_maturity_major :
  (forall l : list (Time * list Q),
     let options := TimeMap.of_list l in
     let p := Europeans.Europeans options in
     ascending (Europeans.timeline p) /\
     (forall t, has_date t (Europeans.timeline p) <-> has_date t (map fst l)) /\
     Europeans.timeline p = map fst options /\
     Europeans.strikes p = map snd options /\
     length (Europeans.payoffLabels p) = width options /\
     (forall path buf,
        aligned (Europeans.dataline p) path = true ->
        length buf = length (Europeans.payoffLabels p) ->
        Req (Europeans.payoffs p path buf) (Ok (strip (Europeans.strikes p) path)) /\
        length (strip (Europeans.strikes p) path) = width options)) /\
  (forall (T1 T2 : Time) (l : list (Time * list Q)) (n1 f1 n2 f2 : Q) (b0 b1 b2 : T),
     T1 < T2 ->
     l = [(T1, [90; 100]); (T2, [95])] \/ l = [(T2, [95]); (T1, [90; 100])] ->
     let p := Europeans.Europeans (TimeMap.of_list l) in
     let path := [Sample.make n1 [f1] [] []; Sample.make n2 [f2] [] []] in
     Europeans.timeline p = [T1; T2] /\
     aligned (Europeans.dataline p) path = true /\
     length (Europeans.payoffLabels p) = 3%nat /\
     Req (Europeans.payoffs p path [b0; b1; b2])
         (Ok [call_payoff f1 90 n1; call_payoff f1 100 n1; call_payoff f2 95 n2])).
Proof.
  split.
  - intros l options p.
    destruct (of_list_spec l [] (SSorted_nil _)) as [Hwf Hkeys].
    fold (TimeMap.of_list l) in Hwf, Hkeys. fold options in Hwf, Hkeys.
    split; [exact Hwf|]. split.
    + intro t. unfold p, Europeans.timeline, Europeans.Europeans.
      cbn [Europeans.myMaturities]. rewrite Hkeys.
      split; [intros [H|H]; [exact H|inversion H] | intro H; left; exact H].
    + split; [reflexivity|]. split; [reflexivity|].
      split; [apply Europeans_labels_width|].
      intros path buf Hal Hbuf. split; [apply Europeans_payoffs_strip; assumption|].
      unfold strip. rewrite strip_with_length
        by (apply Europeans_aligned_length; exact Hal).
      unfold width. cbn [Europeans.strikes Europeans.myStrikes p Europeans.Europeans].
      rewrite map_map. reflexivity.
  - intros T1 T2 l n1 f1 n2 f2 b0 b1 b2 H12 Hl p path.
    destruct (two_maturities T1 T2 [90; 100] [95] H12) as [E1 E2].
    assert (E : TimeMap.of_list l = [(T1, [90; 100]); (T2, [95])]).
    { destruct Hl as [-> | ->]; assumption. }
    unfold p. rewrite E.
    split; [reflexivity|]. split; [reflexivity|]. split; [reflexivity|].
    apply (Europeans_payoffs_strip [(T1, [90; 100]); (T2, [95])] path [b0; b1; b2]);
      reflexivity.
Qed.

Lemma Europeans_maturity_major_witness :
  Req (Europeans.payoffs
         (Europeans.Europeans (TimeMap.of_list [(2, [95]); (1, [90; 100])]))
         [Sample.make 1 [100] [] []; Sample.make 2 [100] [] []]
         [Fin 0; Fin 0; Fin 0])
      (Ok [call_payoff 100 90 1; call_payoff 100 100 1; call_payoff 100 95 2]).
Proof.
  apply (proj2 Europeans_maturity_major 1 2 [(2, [95]); (1, [90; 100])]
           1 100 2 100 (Fin 0) (Fin 0) (Fin 0)).
  - reflexivity.
  - right. reflexivity.
Defined.

(** ** ContingentBond *)









Lemma periods_coupons (p : ContingentBond.t) (w : Q) (path : Scenario)
    (ptodo : Scenario) :
  forall (i : nat) (dts : list Q) (acc : T) (bs : list T),
    skipn i path = ptodo ->
    skipn i (ContingentBond.myDt p) = dts ->
    length dts = (length ptodo - 1)%nat ->
    Forall one_forward ptodo ->
    Forall one_libor (removelast ptodo) ->
    ContingentBond.periods p w (2 * w) path (length ptodo - 1) i (acc :: bs)
    = Ok (fold_left Tadd (coupons (ContingentBond.myCpn p) w ptodo dts) acc :: bs).
Proof.
  induction ptodo as [|s ptodo IH]; intros i dts acc bs Hp Hd Hlen Hfw Hlb;
    [reflexivity|].
  destruct ptodo as [|e ptodo]; [reflexivity|].
  destruct dts as [|dt dts]; [discriminate|].
  destruct (at_skipn _ _ _ _ Hp) as [Hs Hp'].
  destruct (at_skipn _ _ _ _ Hp') as [He _].
  destruct (at_skipn _ _ _ _ Hd) as [Hdt Hd'].
  inversion Hfw as [|? ? [s0 Hs0] Hfw']. inversion Hfw' as [|? ? [s1 Hs1] _].
  change (removelast (s :: e :: ptodo)) with (s :: removelast (e :: ptodo)) in Hlb.
  inversion Hlb as [|? ? [lb Hl] Hlb'].
  replace (length (s :: e :: ptodo) - 1)%nat with (S (length (e :: ptodo) - 1))
    by (cbn [length]; lia).
  cbn [ContingentBond.periods]. rewrite Nat.add_1_r, Hs, He. cbn [bind].
  rewrite Hs0, Hs1, Hl, Hdt. cbn [at_ nth_error bind store].
  rewrite (IH (S i) dts); try assumption.
  - change (coupons (ContingentBond.myCpn p) w (s :: e :: ptodo) (dt :: dts))
      with (coupon (ContingentBond.myCpn p) w s e dt
            :: coupons (ContingentBond.myCpn p) w (e :: ptodo) dts).
    cbn [fold_left]. unfold coupon. rewrite Hs0, Hs1, Hl. reflexivity.
  - cbn [length] in *. lia.
Qed.

Lemma entry_requests (tl : list Time) (n a : nat) :
  length (SimulDef.forwardMats (ContingentBond.entry tl n a)) = 1%nat /\
  length (SimulDef.liborDefs (ContingentBond.entry tl n a))
  = (if (a <? n - 1)%nat then 1 else 0)%nat.
Proof.
  unfold ContingentBond.entry. destruct (a <? n - 1)%nat; split; reflexivity.
Qed.

Lemma ContingentBond_aligned_samples (tl : list Time) (n k : nat) :
  forall (a : nat) (path : Scenario),
    aligned (map (ContingentBond.entry tl n) (seq a k)) path = true ->
    (a + k = n)%nat ->
    Forall one_forward path /\ Forall one_libor (removelast path).
Proof.
  induction k as [|k IH]; intros a [|s path] H Hn; cbn [seq map aligned] in H;
    try discriminate.
  - split; constructor.
  - apply andb_true_iff in H. destruct H as [Hs H].
    unfold answers in Hs. rewrite !andb_true_iff, !Nat.eqb_eq in Hs.
    destruct Hs as [[Hf _] Hl].
    destruct (entry_requests tl n a) as [Ef El]. rewrite Ef in Hf. rewrite El in Hl.
    assert (Hn' : (S a + k = n)%nat) by lia.
    destruct (IH (S a) path H Hn') as [IHf IHl].
    split.
    + constructor; [|exact IHf].
      destruct (Sample.forwards s) as [|f [|? ?]] eqn:Es; try discriminate.
      exists f. exact Es.
    + destruct path as [|e path]; [constructor|].
      change (removelast (s :: e :: path)) with (s :: removelast (e :: path)).
      constructor; [|exact IHl].
      destruct k as [|k]; [discriminate|].
      assert (Ha : (a <? n - 1)%nat = true) by (apply Nat.ltb_lt; lia).
      rewrite Ha in Hl.
      destruct (Sample.libors s) as [|l [|? ?]] eqn:Es; try discriminate.
      exists l. exact Es.
Qed.

(** What the constructor of ContingentBond stores *)
Lemma ContingentBond_fields (fuel : nat)
    (systemTime maturity cpn freq smooth : Q) (p : ContingentBond.t) :
  ContingentBond.ContingentBond fuel systemTime maturity cpn freq smooth = Some p ->
  ContingentBond.myCpn p = cpn /\ ContingentBond.mySmooth p = smooth /\
  ContingentBond.myDt p = intervals (ContingentBond.timeline p) /\
  ContingentBond.dataline p
  = map (ContingentBond.entry (ContingentBond.timeline p)
           (length (ContingentBond.timeline p)))
        (seq 0 (length (ContingentBond.timeline p))) /\
  length (ContingentBond.payoffLabels p) = 1%nat /\
  (2 <= length (ContingentBond.timeline p))%nat.
Proof.
  intro H. unfold ContingentBond.ContingentBond in H.
  destruct (ContingentBond.schedule fuel maturity freq [systemTime] []
              (systemTime + freq)) as [[tl dt]|] eqn:E; [|discriminate].
  apply schedule_invariant in E; [|discriminate|reflexivity].
  destruct E as [Hne ->]. inversion H; subst; clear H.
  unfold ContingentBond.timeline, ContingentBond.dataline, ContingentBond.payoffLabels.
  cbn [ContingentBond.myDt ContingentBond.myTimeline ContingentBond.myCpn
       ContingentBond.mySmooth ContingentBond.myDataline ContingentBond.myLabels].
  rewrite <- (intervals_snoc tl maturity Hne). repeat split.
  rewrite length_app. destruct tl; [congruence|]. cbn [length]. lia.
Qed.

(** On an aligned path, [payoffs] of a constructed bond *)
Lemma ContingentBond_payoffs_aligned (fuel : nat)
    (systemTime maturity cpn freq smooth : Q) (p : ContingentBond.t)
    (path : Scenario) (b : T) (bs : list T) :
  ContingentBond.ContingentBond fuel systemTime maturity cpn freq smooth = Some p ->
  aligned (ContingentBond.dataline p) path = true ->
  let w := hd 0 (spots path) * smooth in
  length (intervals (ContingentBond.timeline p)) = (length path - 1)%nat /\
  ContingentBond.smooth_of p path = Ok w /\
  ContingentBond.payoffs p path (b :: bs)
  = Ok (Tadd (fold_left Tadd
                (coupons cpn w path (intervals (ContingentBond.timeline p))) (Fin 0))
             (Tdiv (Fin 1) (Fin (last (numeraires path) 0))) :: bs).
Proof.
  intros Hp Hal w.
  destruct (ContingentBond_fields _ _ _ _ _ _ _ Hp) as (Hc & Hs & Hdt & Hdl & _ & H2).
  pose proof (aligned_length _ _ Hal) as Hlen.
  rewrite Hdl in Hal, Hlen. rewrite length_map, length_seq in Hlen.
  destruct (ContingentBond_aligned_samples _ _ _ 0 path Hal eq_refl) as [Hfw Hlb].
  assert (Hil : length (intervals (ContingentBond.timeline p)) = (length path - 1)%nat).
  { rewrite intervals_length, Hlen. reflexivity. }
  split; [exact Hil|].
  destruct path as [|s0 rest].
  { exfalso. cbn [length] in Hlen. lia. }
  assert (Hw : ContingentBond.smooth_of p (s0 :: rest) = Ok w).
  { inversion Hfw as [|? ? [f0 Hf0] _]. unfold ContingentBond.smooth_of, w.
    cbn [at_ nth_error bind spots map hd]. rewrite Hf0, Hs. reflexivity. }
  split; [exact Hw|].
  unfold ContingentBond.payoffs. rewrite Hw. cbn [bind store].
  rewrite (periods_coupons p w (s0 :: rest) (s0 :: rest) 0
             (intervals (ContingentBond.timeline p)) (Fin 0) bs);
    try assumption; try reflexivity.
  cbn [bind]. set (d := Sample.make 0 [] [] []).
  assert (Hne : s0 :: rest <> []) by discriminate.
  rewrite (back_last _ d Hne). cbn [bind at_ nth_error store].
  unfold numeraires. rewrite (last_map _ _ d 0 Hne), Hc. reflexivity.
Qed.











(** ** The contract of [payoffs] *)

(** C8, counterexample.  A European has a timeline of one date and one
    label; called with a path of two samples and a buffer of three cells,
    [payoffs] reports nothing: it returns normally, having written the
    first cell. *)
Lemma European_payoffs_mismatch_accepted :
  let p := European.European2 90 1 in
  let path := [Sample.make 2 [100] [1] []; Sample.make 1 [50] [1] []] in
  let buf := [Fin 7; Fin 7; Fin 7] in
  length path <> length (European.timeline p) /\
  length buf <> length (European.payoffLabels p) /\
  European.payoffs p path buf = Ok [Fin (10 # 2); Fin 7; Fin 7].
Proof.
  split; [discriminate|]. split; [discriminate|]. reflexivity.
Qed.

(** C8, as the code has it.  No [payoffs] checks a length or reports a
    failure.  A European's [payoffs], on every path of at least one sample
    (holding at least one forward and one discount factor) and every buffer
    of at least one cell, whatever their lengths, returns normally: the
    first cell holds the payoff computed from the first sample, the other
    cells are unchanged and the other samples are not read; in the
    remaining cases (empty path, first sample without forward or discount,
    empty buffer) it indexes a vector out of range, which is undefined
    behaviour and not a reported failure.  On an aligned path, the
    [payoffs] of UOC, Europeans and ContingentBond accept a buffer wider
    than the labels: they write the leading cells, one per label, and leave
    the cells after them unchanged. *)
Theorem payoffs_unchecked :
  (forall (p : European.t) (path : Scenario) (buf : list T),
     (forall s rest F fs D ds b bs,
        path = s :: rest -> Sample.forwards s = F :: fs ->
        Sample.discounts s = D :: ds -> buf = b :: bs ->
        European.payoffs p path buf
        = Ok (Tdiv (Tmul (Fin (max (F - European.myStrike p) 0)) (Fin D))
                   (Fin (Sample.numeraire s)) :: bs)) /\
     (European.payoffs p path buf = Undefined <->
      path = [] \/ (exists s rest, path = s :: rest /\
                     (Sample.forwards s = [] \/ Sample.discounts s = []))
      \/ buf = [])) /\
  (forall fuel systemTime strike barrier maturity freq smooth p path b0 b1 bs,
     UOC.UOC fuel systemTime strike barrier maturity freq smooth = Some p ->
     aligned (UOC.dataline p) path = true ->
     length (UOC.payoffLabels p) = 2%nat /\
     exists v0 v1, UOC.payoffs p path (b0 :: b1 :: bs) = Ok (v0 :: v1 :: bs)) /\
  (forall options path cells post,
     let p := Europeans.Europeans options in
     aligned (Europeans.dataline p) path = true ->
     length cells = length (Europeans.payoffLabels p) ->
     exists vs, length vs = length cells /\
                Europeans.payoffs p path (cells ++ post) = Ok (vs ++ post)) /\
  (forall fuel systemTime maturity cpn freq smooth p path b bs,
     ContingentBond.ContingentBond fuel systemTime maturity cpn freq smooth = Some p ->
     aligned (ContingentBond.dataline p) path = true ->
     length (ContingentBond.payoffLabels p) = 1%nat /\
     exists v, ContingentBond.payoffs p path (b :: bs) = Ok (v :: bs)).
Proof.
  split; [|split; [|split]].
  - intros p path buf. split.
    + intros s rest F fs D ds b bs -> HF HD ->.
      eapply European_payoffs_reads_first; eassumption.
    + apply European_payoffs_Undefined.
  - intros fuel systemTime strike barrier maturity freq smooth p path b0 b1 bs Hp Hal.
    destruct (UOC_fields _ _ _ _ _ _ _ _ Hp) as (_ & _ & _ & _ & _ & _ & _ & Hlab).
    split; [exact Hlab|].
    destruct (UOC_payoffs_aligned fuel _ _ _ _ _ _ p path b0 b1 bs Hp Hal)
      as (_ & _ & Hpay).
    eexists _, _. exact Hpay.
  - intros options path cells post p Hal Hlen.
    eexists. split; [|apply Europeans_payoffs_cells; assumption].
    rewrite strip_with_length by (apply Europeans_aligned_length; exact Hal).
    rewrite Hlen. unfold p. rewrite Europeans_labels_width.
    unfold width. rewrite map_map. reflexivity.
  - intros fuel systemTime maturity cpn freq smooth p path b bs Hp Hal.
    destruct (ContingentBond_fields _ _ _ _ _ _ _ Hp) as (_ & _ & _ & _ & Hlab & _).
    split; [exact Hlab|].
    destruct (ContingentBond_payoffs_aligned fuel _ _ _ _ _ p path b bs Hp Hal)
      as (_ & _ & Hpay).
    eexists. exact Hpay.
Qed.

Lemma payoffs_unchecked_witness :
  European.payoffs (European.European2 90 1)
    [Sample.make 2 [100] [1] []; Sample.make 1 [50] [1] []]
    [Fin 7; Fin 7; Fin 7]
  = Ok (Tdiv (Tmul (Fin (max (100 - 90) 0)) (Fin 1)) (Fin 2) :: [Fin 7; Fin 7]) /\
  (exists p v0 v1,
     UOC.UOC 0 0 90 100 1 1 (1 # 10) = Some p /\
     UOC.payoffs p [Sample.make 1 [90] [] []; Sample.make 2 [100] [] []]
       [Fin 7; Fin 7; Fin 7] = Ok [v0; v1; Fin 7]) /\
  (exists vs,
     Europeans.payoffs (Europeans.Europeans [(1, [90; 100])])
       [Sample.make 1 [100] [] []] ([Fin 7; Fin 7] ++ [Fin 7]) = Ok (vs ++ [Fin 7])) /\
  (exists p v,
     ContingentBond.ContingentBond 0 0 1 (1 # 20) 1 (1 # 10) = Some p /\
     ContingentBond.payoffs p
       [Sample.make 1 [100] [] [1 # 50]; Sample.make 1 [100] [] []]
       [Fin 7; Fin 7] = Ok [v; Fin 7]).
Proof.
  destruct payoffs_unchecked as (HE & HU & HS & HC).
  split; [|split; [|split]].
  - apply (proj1 (HE (European.European2 90 1)
      [Sample.make 2 [100] [1] []; Sample.make 1 [50] [1] []]
      [Fin 7; Fin 7; Fin 7])
      (Sample.make 2 [100] [1] []) [Sample.make 1 [50] [1] []]
      100 [] 1 [] (Fin 7) [Fin 7; Fin 7]); reflexivity.
  - eexists.
    destruct (HU 0%nat 0 90 100 1 1 (1 # 10) _
                [Sample.make 1 [90] [] []; Sample.make 2 [100] [] []]
                (Fin 7) (Fin 7) [Fin 7] eq_refl eq_refl) as (_ & v0 & v1 & H).
    exists v0, v1. split; [reflexivity|exact H].
  - destruct (HS [(1, [90; 100])] [Sample.make 1 [100] [] []]
                [Fin 7; Fin 7] [Fin 7] eq_refl eq_refl) as (vs & _ & H).
    exists vs. exact H.
  - eexists.
    destruct (HC 0%nat 0 1 (1 # 20) 1 (1 # 10) _
                [Sample.make 1 [100] [] [1 # 50]; Sample.make 1 [100] [] []]
                (Fin 7) [Fin 7] eq_refl eq_refl) as (_ & v & H).
    exists v. split; [reflexivity|exact H].
Defined.

(** * Further properties of the products *)

(** ** Indexing *)

Lemma at_map_seq {A : Type} (g : nat -> A) (n : nat) :
  forall (a i : nat), (i < n)%nat -> at_ (map g (seq a n)) i = Ok (g (a + i)%nat).
Proof.
  induction n as [|n IH]; intros a i Hi; [lia|].
  destruct i as [|i].
  - cbn [seq map]. unfold at_. cbn [nth_error]. rewrite Nat.add_0_r. reflexivity.
  - cbn [seq map]. change (at_ (g a :: map g (seq (S a) n)) (S i))
      with (at_ (map g (seq (S a) n)) i).
    rewrite IH by lia. f_equal. f_equal. lia.
Qed.

Lemma at_Ok_lt {A : Type} (v : list A) (i : nat) (x : A) :
  at_ v i = Ok x -> (i < length v)%nat.
Proof.
  intro H. destruct (Nat.lt_ge_cases i (length v)) as [Hlt|Hge]; [exact Hlt|].
  apply at_Undefined in Hge. congruence.
Qed.

Lemma at_Ok_nth {A : Type} (v : list A) (i : nat) (x d : A) :
  at_ v i = Ok x -> nth i v d = x.
Proof.
  unfold at_. destruct (nth_error v i) as [y|] eqn:E; [|discriminate].
  intro H. inversion H; subst. apply nth_error_nth. exact E.
Qed.

Lemma back_numeraire_at (v : list SimulDef.t) :
  forall (i : nat) (d : SimulDef.t),
    at_ v i = Ok d ->
    at_ (UOC.back_numeraire v) i
    = Ok (if Nat.eqb (S i) (length v) then SimulDef.set_numeraire d true else d).
Proof.
  induction v as [|a v IH]; intros i d H; [destruct i; discriminate|].
  destruct v as [|b v].
  - destruct i as [|i]; [|destruct i; discriminate].
    unfold at_ in *. cbn in *. inversion H. reflexivity.
  - change (UOC.back_numeraire (a :: b :: v)) with (a :: UOC.back_numeraire (b :: v)).
    destruct i as [|i].
    + unfold at_ in *. cbn in *. exact H.
    + change (at_ (a :: UOC.back_numeraire (b :: v)) (S i))
        with (at_ (UOC.back_numeraire (b :: v)) i).
      rewrite (IH i d H). reflexivity.
Qed.

(** ** Datalines *)

(** X1. The dataline of an up-and-out call has one entry per date of the
    timeline; entry [i] requests the forward of maturity timeline[i] and
    nothing else, and the numeraire on the last date only. *)
Theorem UOC_dataline_requests (fuel : nat)
    (systemTime strike barrier maturity freq smooth : Q) (p : UOC.t) :
  UOC.UOC fuel systemTime strike barrier maturity freq smooth = Some p ->
  length (UOC.dataline p) = length (UOC.timeline p) /\
  forall i t,
    at_ (UOC.timeline p) i = Ok t ->
    at_ (UOC.dataline p) i
    = Ok (SimulDef.make (Nat.eqb (S i) (length (UOC.timeline p))) [t] [] []).
Proof.
  intro Hp. destruct (UOC_fields _ _ _ _ _ _ _ _ Hp) as (_ & _ & _ & _ & Hlen & _).
  split; [exact Hlen|]. intros i t Ht.
  unfold UOC.UOC in Hp.
  destruct (UOC.monitoring fuel maturity freq [systemTime] (systemTime + freq))
    as [tl|]; [|discriminate].
  inversion Hp; subst; clear Hp.
  unfold UOC.dataline, UOC.timeline in *. cbn [UOC.myDataline UOC.myTimeline] in *.
  pose proof (at_Ok_lt _ _ _ Ht) as Hi.
  rewrite (back_numeraire_at _ i (UOC.entry (tl ++ [maturity]) i)).
  - rewrite length_map, length_seq. unfold UOC.entry.
    rewrite (at_Ok_nth _ _ _ 0 Ht).
    destruct (Nat.eqb (S i) (length (tl ++ [maturity]))); reflexivity.
  - rewrite (at_map_seq _ _ 0 i Hi). reflexivity.
Qed.

Lemma UOC_dataline_requests_witness :
  exists p,
    UOC.UOC 5 0 90 100 1 (1 # 2) (1 # 10) = Some p /\
    at_ (UOC.dataline p) 1 = Ok (SimulDef.make false [1 # 2] [] []) /\
    at_ (UOC.dataline p) 2 = Ok (SimulDef.make true [1] [] []).
Proof.
  eexists. split; [reflexivity|]. split.
  - apply (proj2 (UOC_dataline_requests 5 0 90 100 1 (1 # 2) (1 # 10) _ eq_refl) 1%nat (1 # 2)).
    reflexivity.
  - apply (proj2 (UOC_dataline_requests 5 0 90 100 1 (1 # 2) (1 # 10) _ eq_refl) 2%nat 1).
    reflexivity.
Defined.

(** X2. The dataline of a contingent bond has one entry per date of the
    timeline; entry [i] requests the forward of maturity timeline[i], the
    libor from timeline[i] to timeline[i+1] on every date but the last, no
    discount factor, and the numeraire on every date but the first. *)
Theorem ContingentBond_dataline_requests (fuel : nat)
    (systemTime maturity cpn freq smooth : Q) (p : ContingentBond.t) :
  ContingentBond.ContingentBond fuel systemTime maturity cpn freq smooth = Some p ->
  length (ContingentBond.dataline p) = length (ContingentBond.timeline p) /\
  forall i t,
    at_ (ContingentBond.timeline p) i = Ok t ->
    at_ (ContingentBond.dataline p) i
    = Ok (SimulDef.make (0 <? i)%nat [t] []
            match at_ (ContingentBond.timeline p) (S i) with
            | Ok t' => [RateDef.make t t' "libor"]
            | Undefined => []
            end).
Proof.
  intro Hp.
  destruct (ContingentBond_fields _ _ _ _ _ _ _ Hp) as (_ & _ & _ & Hdl & _ & _).
  rewrite Hdl. split; [rewrite length_map, length_seq; reflexivity|].
  intros i t Ht. pose proof (at_Ok_lt _ _ _ Ht) as Hi.
  rewrite (at_map_seq _ _ 0 i Hi). cbn [Nat.add]. f_equal.
  unfold ContingentBond.entry. rewrite (at_Ok_nth _ _ _ 0 Ht).
  destruct (at_ (ContingentBond.timeline p) (S i)) as [t'|] eqn:E.
  - pose proof (at_Ok_lt _ _ _ E) as Hi'.
    assert (Hlt : (i <? length (ContingentBond.timeline p) - 1)%nat = true)
      by (apply Nat.ltb_lt; lia).
    rewrite Hlt, Nat.add_1_r, (at_Ok_nth _ _ _ 0 E). reflexivity.
  - apply at_Undefined in E.
    assert (Hlt : (i <? length (ContingentBond.timeline p) - 1)%nat = false)
      by (apply Nat.ltb_ge; lia).
    rewrite Hlt. reflexivity.
Qed.

Lemma ContingentBond_dataline_requests_witness :
  exists p,
    ContingentBond.ContingentBond 5 0 1 (1 # 20) (1 # 2) (1 # 10) = Some p /\
    at_ (ContingentBond.dataline p) 0
    = Ok (SimulDef.make false [0] [] [RateDef.make 0 (1 # 2) "libor"]) /\
    at_ (ContingentBond.dataline p) 2 = Ok (SimulDef.make true [1] [] []).
Proof.
  eexists. split; [reflexivity|]. split.
  - apply (proj2 (ContingentBond_dataline_requests 5 0 1 (1 # 20) (1 # 2) (1 # 10) _ eq_refl)
             0%nat 0).
    reflexivity.
  - apply (proj2 (ContingentBond_dataline_requests 5 0 1 (1 # 20) (1 # 2) (1 # 10) _ eq_refl)
             2%nat 1).
    reflexivity.
Defined.

(** X3. The constructor of Europeans splits the mapping into the vector of
    maturities and the vector of strike vectors, index to index: pairing
    them again gives the mapping back; the dataline has one entry per
    maturity, requesting the numeraire and the forward of that maturity
    and nothing else. *)
Theorem Europeans_vectors (options : TimeMap.t) :
  let p := Europeans.Europeans options in
  length (Europeans.strikes p) = length (Europeans.maturities p) /\
  combine (Europeans.maturities p) (Europeans.strikes p) = options /\
  length (Europeans.dataline p) = length (Europeans.timeline p) /\
  forall i t,
    at_ (Europeans.timeline p) i = Ok t ->
    at_ (Europeans.dataline p) i = Ok (SimulDef.make true [t] [] []).
Proof.
  intro p. unfold p, Europeans.strikes, Europeans.maturities, Europeans.dataline,
    Europeans.timeline, Europeans.Europeans.
  cbn [Europeans.myStrikes Europeans.myMaturities Europeans.myDataline].
  split; [rewrite !length_map; reflexivity|]. split.
  - induction options as [|[k v] options IH]; [reflexivity|].
    cbn [map combine fst snd]. rewrite IH. reflexivity.
  - split; [rewrite !length_map, length_seq; reflexivity|].
    intros i t Ht. pose proof (at_Ok_lt _ _ _ Ht) as Hi.
    rewrite length_map in Hi. rewrite (at_map_seq _ _ 0 i Hi). cbn [Nat.add].
    unfold Europeans.entry. rewrite (at_Ok_nth _ _ _ 0 Ht). reflexivity.
Qed.

(** ** Labels of a strip *)

Lemma cells_labels (options : TimeMap.t) :
  forall path, length path = length options ->
    Europeans.payoffLabels (Europeans.Europeans options)
    = map (fun c => call_label (fst (fst c)) (snd (fst c))) (cells options path).
Proof.
  unfold Europeans.payoffLabels, Europeans.Europeans. cbn [Europeans.myLabels].
  induction options as [|[t ks] options IH]; intros [|s path] H; try discriminate;
    [reflexivity|].
  cbn [flat_map cells fst snd]. rewrite map_app, map_map.
  rewrite (IH path) by (simpl in H; lia). reflexivity.
Qed.

Lemma cells_strip (g : Q -> Q -> Q -> T) (options : TimeMap.t) :
  forall path,
    strip_with g (map snd options) path
    = map (fun c => g (hd 0 (Sample.forwards (snd c))) (snd (fst c))
                      (Sample.numeraire (snd c)))
          (cells options path).
Proof.
  induction options as [|[t ks] options IH]; intros [|s path]; try reflexivity.
  cbn [map snd strip_with cells]. rewrite map_app, map_map, IH. reflexivity.
Qed.

Lemma cells_origin (options : TimeMap.t) :
  forall path,
    Forall (fun c => exists ks, In (fst (fst c), ks, snd c) (combine options path)
                                /\ In (snd (fst c)) ks)
           (cells options path).
Proof.
  induction options as [|[t ks] options IH]; intros [|s path]; try constructor.
  cbn [cells combine]. apply Forall_app. split.
  - apply Forall_forall. intros c Hc. apply in_map_iff in Hc.
    destruct Hc as (k & <- & Hk). exists ks. split; [left; reflexivity|exact Hk].
  - eapply Forall_impl; [|apply IH]. intros c (ks' & Hin & Hk).
    exists ks'. split; [right; exact Hin|exact Hk].
Qed.

(** X4. The labels of a strip name its payoffs, cell by cell: on an aligned
    path, the labels and the values written by [payoffs] are the images of
    one list of cells, each made of a maturity of the mapping, the sample
    of the path at that maturity and one strike of that maturity; the
    label is "call maturity strike" and the value is
    max(forward - strike, 0) / numeraire of that sample. *)
Theorem Europeans_labels_name_payoffs (options : TimeMap.t) (path : Scenario)
    (buf : list T) :
  let p := Europeans.Europeans options in
  aligned (Europeans.dataline p) path = true ->
  length buf = length (Europeans.payoffLabels p) ->
  Europeans.payoffLabels p
  = map (fun c => call_label (fst (fst c)) (snd (fst c))) (cells options path) /\
  Req (Europeans.payoffs p path buf)
      (Ok (map (fun c => call_payoff (hd 0 (Sample.forwards (snd c)))
                                     (snd (fst c)) (Sample.numeraire (snd c)))
               (cells options path))) /\
  Forall (fun c => exists ks, In (fst (fst c), ks, snd c) (combine options path)
                              /\ In (snd (fst c)) ks)
         (cells options path).
Proof.
  intros p Hal Hbuf. split; [|split].
  - apply cells_labels. rewrite (Europeans_aligned_length _ _ Hal), length_map.
    reflexivity.
  - rewrite <- (cells_strip call_payoff). apply Europeans_payoffs_strip; assumption.
  - apply cells_origin.
Qed.

Lemma Europeans_labels_name_payoffs_witness :
  Europeans.payoffLabels (Europeans.Europeans [(1, [90; 100]); (2, [95])])
  = [call_label 1 90; call_label 1 100; call_label 2 95].
Proof.
  apply (Europeans_labels_name_payoffs [(1, [90; 100]); (2, [95])]
           [Sample.make 1 [100] [] []; Sample.make 2 [100] [] []]
           [Fin 0; Fin 0; Fin 0] eq_refl eq_refl).
Defined.

(** ** The barrier without smoothing *)




(** ** What [payoffs] reads of a path *)

Lemma agree_spots (dl : list SimulDef.t) :
  forall path path', agree dl path path' -> spots path = spots path'.
Proof.
  induction dl as [|d dl IH]; intros [|s p] [|s' p'] H; cbn [agree] in H;
    try contradiction; [reflexivity|].
  destruct H as [(Hf & _) H]. unfold spots in *. cbn [map].
  rewrite Hf, (IH p p' H). reflexivity.
Qed.

Lemma agree_back_numeraire (v : list SimulDef.t) :
  forall path path',
    v <> [] -> agree (UOC.back_numeraire v) path path' ->
    last (numeraires path) 0 = last (numeraires path') 0.
Proof.
  induction v as [|d v IH]; intros path path' Hne H; [congruence|].
  destruct v as [|d' v].
  - destruct path as [|s [|? ?]], path' as [|s' [|? ?]]; cbn in H; try tauto.
    destruct H as [(_ & _ & _ & Hn) _]. cbn. apply Hn. reflexivity.
  - change (UOC.back_numeraire (d :: d' :: v))
      with (d :: UOC.back_numeraire (d' :: v)) in H.
    destruct path as [|s p], path' as [|s' p']; cbn [agree] in H; try contradiction.
    destruct H as [_ H].
    assert (Hp : p <> [] /\ p' <> []).
    { destruct v as [|d'' v]; destruct p, p'; cbn in H; try contradiction;
        split; discriminate. }
    destruct Hp as [Hp Hp'].
    specialize (IH p p' ltac:(discriminate) H).
    unfold numeraires in *. cbn [map].
    destruct p as [|e p]; [congruence|]. destruct p' as [|e' p']; [congruence|].
    exact IH.
Qed.

(** X7. [payoffs] of an up-and-out call reads what its dataline requests and
    nothing else: two aligned paths with the same forwards on every date
    and the same numeraire on the last date give the same result, whatever
    the numeraires of the other dates and whatever the buffer. *)
Theorem UOC_payoffs_reads_requests (fuel : nat)
    (systemTime strike barrier maturity freq smooth : Q) (p : UOC.t)
    (path path' : Scenario) (buf : list T) :
  UOC.UOC fuel systemTime strike barrier maturity freq smooth = Some p ->
  aligned (UOC.dataline p) path = true ->
  aligned (UOC.dataline p) path' = true ->
  agree (UOC.dataline p) path path' ->
  UOC.payoffs p path buf = UOC.payoffs p path' buf.
Proof.
  intros Hp Hal Hal' Hag.
  pose proof (agree_spots _ _ _ Hag) as Hsp.
  assert (Hnum : last (numeraires path) 0 = last (numeraires path') 0).
  { unfold UOC.UOC in Hp.
    destruct (UOC.monitoring fuel maturity freq [systemTime] (systemTime + freq))
      as [tl|]; [|discriminate].
    inversion Hp; subst; clear Hp.
    unfold UOC.dataline in Hag. cbn [UOC.myDataline] in Hag.
    apply (agree_back_numeraire _ _ _) in Hag; [exact Hag|].
    rewrite length_app. cbn [length]. rewrite Nat.add_1_r. discriminate. }
  destruct buf as [|b0 [|b1 bs]].
  - destruct (UOC_payoffs_aligned fuel _ _ _ _ _ _ p path (Fin 0) (Fin 0) [] Hp Hal)
      as (_ & Ha & _).
    destruct (UOC_payoffs_aligned fuel _ _ _ _ _ _ p path' (Fin 0) (Fin 0) [] Hp Hal')
      as (_ & Ha' & _).
    unfold UOC.payoffs. rewrite Ha, Ha'. cbn [bind].
    destruct (back path) as [sN|], (back path') as [sN'|]; cbn [bind];
      try destruct (at_ (Sample.forwards sN) 0);
      try destruct (at_ (Sample.forwards sN') 0); reflexivity.
  - destruct (UOC_payoffs_aligned fuel _ _ _ _ _ _ p path (Fin 0) (Fin 0) [] Hp Hal)
      as (_ & Ha & _).
    destruct (UOC_payoffs_aligned fuel _ _ _ _ _ _ p path' (Fin 0) (Fin 0) [] Hp Hal')
      as (_ & Ha' & _).
    unfold UOC.payoffs. rewrite Ha, Ha'. cbn [bind].
    destruct (back path) as [sN|], (back path') as [sN'|]; cbn [bind];
      try destruct (at_ (Sample.forwards sN) 0);
      try destruct (at_ (Sample.forwards sN') 0); reflexivity.
  - destruct (UOC_payoffs_aligned fuel _ _ _ _ _ _ p path b0 b1 bs Hp Hal)
      as (_ & _ & Hpay).
    destruct (UOC_payoffs_aligned fuel _ _ _ _ _ _ p path' b0 b1 bs Hp Hal')
      as (_ & _ & Hpay').
    rewrite Hpay, Hpay', Hsp, Hnum. reflexivity.
Qed.

Lemma UOC_payoffs_reads_requests_witness :
  exists p,
    UOC.UOC 0 0 90 100 1 1 (1 # 10) = Some p /\
    UOC.payoffs p [Sample.make 1 [90] [] []; Sample.make 2 [100] [] []] [Fin 0; Fin 0]
    = UOC.payoffs p [Sample.make 7 [90] [] []; Sample.make 2 [100] [] []] [Fin 0; Fin 0].
Proof.
  eexists. split; [reflexivity|].
  apply (UOC_payoffs_reads_requests 0 0 90 100 1 1 (1 # 10) _
           [Sample.make 1 [90] [] []; Sample.make 2 [100] [] []]
           [Sample.make 7 [90] [] []; Sample.make 2 [100] [] []]
           [Fin 0; Fin 0] eq_refl eq_refl eq_refl).
  cbn. repeat split; discriminate.
Defined.

Lemma coupons_agree (cpn w : Q) (tl : list Time) (n k : nat) :
  forall (a : nat) (path path' : Scenario) (dts : list Q),
    agree (map (ContingentBond.entry tl n) (seq a k)) path path' ->
    coupons cpn w path dts = coupons cpn w path' dts.
Proof.
  induction k as [|k IH]; intros a path path' dts H.
  - destruct path, path'; cbn in H; try contradiction. reflexivity.
  - destruct path as [|s r], path' as [|s' r']; cbn [seq map agree] in H;
      try contradiction.
    destruct H as [(Hf & _ & Hl & _) H].
    destruct k as [|k].
    + destruct r, r'; cbn in H; try contradiction. reflexivity.
    + destruct r as [|e r], r' as [|e' r']; cbn [seq map agree] in H;
        try contradiction.
      pose proof (IH (S a) (e :: r) (e' :: r')) as IH'.
      cbn [seq map agree] in IH'.
      destruct dts as [|dt dts]; [reflexivity|].
      change (coupons cpn w (s :: e :: r) (dt :: dts))
        with (coupon cpn w s e dt :: coupons cpn w (e :: r) dts).
      change (coupons cpn w (s' :: e' :: r') (dt :: dts))
        with (coupon cpn w s' e' dt :: coupons cpn w (e' :: r') dts).
      rewrite (IH' dts H).
      destruct H as [(Hfe & _ & _ & Hne) _].
      unfold coupon. rewrite Hf, Hl, Hfe, Hne; [reflexivity|].
      unfold ContingentBond.entry.
      destruct (S a <? n - 1)%nat; reflexivity.
Qed.

Lemma agree_last_numeraire (tl : list Time) (n k : nat) :
  forall (a : nat) (path path' : Scenario),
    agree (map (ContingentBond.entry tl n) (seq a k)) path path' ->
    (2 <= a + k)%nat -> (1 <= k)%nat ->
    last (numeraires path) 0 = last (numeraires path') 0.
Proof.
  induction k as [|k IH]; intros a path path' H Hak Hk; [lia|].
  destruct path as [|s r], path' as [|s' r']; cbn [seq map agree] in H;
    try contradiction.
  destruct H as [(_ & _ & _ & Hn) H].
  destruct k as [|k].
  - destruct r, r'; cbn in H; try contradiction. cbn. apply Hn.
    unfold ContingentBond.entry.
    assert (Ha : (0 <? a)%nat = true) by (apply Nat.ltb_lt; lia).
    destruct (a <? n - 1)%nat; cbn; exact Ha.
  - specialize (IH (S a) r r' H ltac:(lia) ltac:(lia)).
    destruct r as [|e r], r' as [|e' r']; cbn [seq map agree] in H;
      try contradiction.
    unfold numeraires in *. exact IH.
Qed.

(** X8. [payoffs] of a contingent bond reads what its dataline requests and
    nothing else: two aligned paths with the same forwards and libors and
    the same numeraire on every date but the first give the same result,
    whatever the numeraire of the first date and whatever the buffer. *)
Theorem ContingentBond_payoffs_reads_requests (fuel : nat)
    (systemTime maturity cpn freq smooth : Q) (p : ContingentBond.t)
    (path path' : Scenario) (buf : list T) :
  ContingentBond.ContingentBond fuel systemTime maturity cpn freq smooth = Some p ->
  aligned (ContingentBond.dataline p) path = true ->
  aligned (ContingentBond.dataline p) path' = true ->
  agree (ContingentBond.dataline p) path path' ->
  ContingentBond.payoffs p path buf = ContingentBond.payoffs p path' buf.
Proof.
  intros Hp Hal Hal' Hag.
  pose proof (agree_spots _ _ _ Hag) as Hsp.
  destruct (ContingentBond_fields _ _ _ _ _ _ _ Hp) as (_ & _ & _ & Hdl & _ & H2).
  rewrite Hdl in Hag.
  destruct (ContingentBond_payoffs_aligned fuel _ _ _ _ _ p path (Fin 0) [] Hp Hal)
    as (_ & Hw & _).
  destruct (ContingentBond_payoffs_aligned fuel _ _ _ _ _ p path' (Fin 0) [] Hp Hal')
    as (_ & Hw' & _).
  destruct buf as [|b bs].
  - unfold ContingentBond.payoffs. rewrite Hw, Hw'. reflexivity.
  - destruct (ContingentBond_payoffs_aligned fuel _ _ _ _ _ p path b bs Hp Hal)
      as (_ & _ & Hpay).
    destruct (ContingentBond_payoffs_aligned fuel _ _ _ _ _ p path' b bs Hp Hal')
      as (_ & _ & Hpay').
    rewrite Hpay, Hpay', Hsp.
    rewrite (coupons_agree cpn _ _ _ _ 0 path path' _ Hag).
    rewrite (agree_last_numeraire _ _ _ 0 path path' Hag); [reflexivity| |]; lia.
Qed.

Lemma ContingentBond_payoffs_reads_requests_witness :
  exists p,
    ContingentBond.ContingentBond 0 0 1 (1 # 20) 1 (1 # 10) = Some p /\
    ContingentBond.payoffs p
      [Sample.make 1 [100] [] [1 # 50]; Sample.make 2 [100] [] []] [Fin 0]
    = ContingentBond.payoffs p
      [Sample.make 7 [100] [] [1 # 50]; Sample.make 2 [100] [] []] [Fin 0].
Proof.
  eexists. split; [reflexivity|].
  apply (ContingentBond_payoffs_reads_requests 0 0 1 (1 # 20) 1 (1 # 10) _
           [Sample.make 1 [100] [] [1 # 50]; Sample.make 2 [100] [] []]
           [Sample.make 7 [100] [] [1 # 50]; Sample.make 2 [100] [] []]
           [Fin 0] eq_refl eq_refl eq_refl).
  cbn. repeat split; discriminate.
Defined.

(** ** The digital of the contingent bond: range and limits *)





(** ** Schedules: what a returned timeline looks like *)











(** ** Coverages of a schedule *)






(** ** Buffers narrower than the labels *)

Lemma transform_short (ks : list Q) (spot num : Q) :
  forall (pre cells : list T),
    (length cells < length ks)%nat ->
    Europeans.transform ks spot num (pre ++ cells) (length pre) = Undefined.
Proof.
  induction ks as [|k ks IH]; intros pre cells Hlen; [simpl in Hlen; lia|].
  cbn [Europeans.transform]. destruct cells as [|c cells].
  - rewrite app_nil_r.
    rewrite (proj2 (store_Undefined pre (length pre) _) (le_n _)). reflexivity.
  - rewrite store_app. cbn [bind].
    replace (S (length pre))
      with (length (pre ++ [Tdiv (Fin (max (spot - k) 0)) (Fin num)]))
      by (rewrite length_app; simpl; lia).
    change (pre ++ ?x :: cells) with (pre ++ [x] ++ cells).
    rewrite app_assoc. apply IH. simpl in Hlen. lia.
Qed.

Lemma loop_short (p : Europeans.t) (path : Scenario) (stodo : list (list Q)) :
  forall (i : nat) (ptodo : Scenario) (pre cells : list T),
    skipn i (Europeans.myStrikes p) = stodo ->
    skipn i path = ptodo ->
    length ptodo = length stodo ->
    Forall one_forward ptodo ->
    (length cells < list_sum (map (@length Q) stodo))%nat ->
    Europeans.loop p path (length stodo) i (pre ++ cells) (length pre) = Undefined.
Proof.
  induction stodo as [|ks stodo IH]; intros i ptodo pre cells Hs Hp Hlen Hone Hc;
    [simpl in Hc; lia|].
  destruct ptodo as [|s ptodo]; [discriminate|].
  destruct (at_skipn _ _ _ _ Hs) as [Hks Hs'].
  destruct (at_skipn _ _ _ _ Hp) as [Hsi Hp'].
  inversion Hone as [|? ? [f Hf] Hone'].
  cbn [length Europeans.loop]. rewrite Hks, Hsi. cbn [bind].
  rewrite Hf. cbn [at_ nth_error bind].
  change (list_sum (map (@length Q) (ks :: stodo)))
    with (length ks + list_sum (map (@length Q) stodo))%nat in Hc.
  destruct (Nat.lt_ge_cases (length cells) (length ks)) as [Hlt|Hge].
  - rewrite transform_short by exact Hlt. reflexivity.
  - rewrite <- (firstn_skipn (length ks) cells).
    rewrite transform_writes by (rewrite length_firstn; lia).
    cbn [bind].
    replace (length pre + length ks)%nat
      with (length (pre ++ map (fun k => Tdiv (Fin (max (f - k) 0)) (Fin (Sample.numeraire s))) ks))
      by (rewrite length_app, length_map; reflexivity).
    rewrite app_assoc.
    apply (IH (S i) ptodo).
    + exact Hs'.
    + exact Hp'.
    + simpl in Hlen. lia.
    + exact Hone'.
    + rewrite length_skipn. lia.
Qed.

(** X14. On an aligned path the buffer must have at least one cell per label:
    [payoffs] of an up-and-out call, of a strip and of a contingent bond
    writes past the end of the buffer, which is undefined behaviour,
    exactly when the buffer is narrower than the labels. *)
Theorem payoffs_narrow_buffer :
  (forall fuel systemTime strike barrier maturity freq smooth p path buf,
     UOC.UOC fuel systemTime strike barrier maturity freq smooth = Some p ->
     aligned (UOC.dataline p) path = true ->
     (UOC.payoffs p path buf = Undefined
      <-> (length buf < length (UOC.payoffLabels p))%nat)) /\
  (forall options path buf,
     let p := Europeans.Europeans options in
     aligned (Europeans.dataline p) path = true ->
     (Europeans.payoffs p path buf = Undefined
      <-> (length buf < length (Europeans.payoffLabels p))%nat)) /\
  (forall fuel systemTime maturity cpn freq smooth p path buf,
     ContingentBond.ContingentBond fuel systemTime maturity cpn freq smooth = Some p ->
     aligned (ContingentBond.dataline p) path = true ->
     (ContingentBond.payoffs p path buf = Undefined
      <-> (length buf < length (ContingentBond.payoffLabels p))%nat)).
Proof.
  split; [|split].
  - intros fuel systemTime strike barrier maturity freq smooth p path buf Hp Hal.
    destruct (UOC_fields _ _ _ _ _ _ _ _ Hp) as (_ & _ & _ & _ & _ & _ & _ & Hlab).
    rewrite Hlab.
    destruct buf as [|b0 [|b1 bs]].
    + split; [cbn; lia|]. intros _.
      destruct (UOC_payoffs_aligned fuel _ _ _ _ _ _ p path (Fin 0) (Fin 0) [] Hp Hal)
        as (_ & Ha & _).
      unfold UOC.payoffs. rewrite Ha. cbn [bind].
      destruct (back path) as [sN|]; cbn [bind];
        try destruct (at_ (Sample.forwards sN) 0); reflexivity.
    + split; [cbn; lia|]. intros _.
      destruct (UOC_payoffs_aligned fuel _ _ _ _ _ _ p path (Fin 0) (Fin 0) [] Hp Hal)
        as (_ & Ha & _).
      unfold UOC.payoffs. rewrite Ha. cbn [bind].
      destruct (back path) as [sN|]; cbn [bind];
        try destruct (at_ (Sample.forwards sN) 0); reflexivity.
    + destruct (UOC_payoffs_aligned fuel _ _ _ _ _ _ p path b0 b1 bs Hp Hal)
        as (_ & _ & Hpay).
      rewrite Hpay. split; [discriminate|]. cbn [length]. lia.
  - intros options path buf p Hal.
    destruct (Nat.lt_ge_cases (length buf) (length (Europeans.payoffLabels p)))
      as [Hlt|Hge].
    + split; [intros _; exact Hlt|]. intros _.
      unfold p in *. rewrite Europeans_labels_width in Hlt.
      unfold Europeans.payoffs.
      replace (length (Europeans.myMaturities (Europeans.Europeans options)))
        with (length (map snd options))
        by (cbn [Europeans.Europeans Europeans.myMaturities]; rewrite !length_map; reflexivity).
      apply (loop_short (Europeans.Europeans options) path (map snd options)
               0 path [] buf).
      * reflexivity.
      * reflexivity.
      * apply Europeans_aligned_length. exact Hal.
      * apply (aligned_one_forward _ (Europeans_dataline_forwards options) _ Hal).
      * unfold width in Hlt. rewrite map_map. exact Hlt.
    + rewrite <- (firstn_skipn (length (Europeans.payoffLabels p)) buf).
      unfold p. rewrite Europeans_payoffs_cells;
        [|exact Hal|rewrite length_firstn; fold p; lia].
      split; [discriminate|]. rewrite firstn_skipn. fold p. lia.
  - intros fuel systemTime maturity cpn freq smooth p path buf Hp Hal.
    destruct (ContingentBond_fields _ _ _ _ _ _ _ Hp) as (_ & _ & _ & _ & Hlab & _).
    rewrite Hlab. destruct buf as [|b bs].
    + split; [cbn; lia|]. intros _.
      destruct (ContingentBond_payoffs_aligned fuel _ _ _ _ _ p path (Fin 0) [] Hp Hal)
        as (_ & Hw & _).
      unfold ContingentBond.payoffs. rewrite Hw. reflexivity.
    + destruct (ContingentBond_payoffs_aligned fuel _ _ _ _ _ p path b bs Hp Hal)
        as (_ & _ & Hpay).
      rewrite Hpay. split; [discriminate|]. cbn [length]. lia.
Qed.

Lemma payoffs_narrow_buffer_witness :
  (exists p,
     UOC.UOC 0 0 90 100 1 1 (1 # 10) = Some p /\
     UOC.payoffs p [Sample.make 1 [90] [] []; Sample.make 2 [100] [] []] [Fin 0]
     = Undefined) /\
  Europeans.payoffs (Europeans.Europeans [(1, [90; 100])])
    [Sample.make 1 [100] [] []] [Fin 0] = Undefined /\
  (exists p,
     ContingentBond.ContingentBond 0 0 1 (1 # 20) 1 (1 # 10) = Some p /\
     ContingentBond.payoffs p
       [Sample.make 1 [100] [] [1 # 50]; Sample.make 1 [100] [] []] [] = Undefined).
Proof.
  destruct payoffs_narrow_buffer as (HU & HS & HC).
  split; [|split].
  - eexists. split; [reflexivity|].
    apply (HU 0%nat 0 90 100 1 1 (1 # 10) _
             [Sample.make 1 [90] [] []; Sample.make 2 [100] [] []] [Fin 0]
             eq_refl eq_refl).
    cbn. lia.
  - apply (HS [(1, [90; 100])] [Sample.make 1 [100] [] []] [Fin 0] eq_refl).
    cbn. lia.
  - eexists. split; [reflexivity|].
    apply (HC 0%nat 0 1 (1 # 20) 1 (1 # 10) _
             [Sample.make 1 [100] [] [1 # 50]; Sample.make 1 [100] [] []] []
             eq_refl eq_refl).
    cbn. lia.
Defined.


(** ** A barrier never approached *)

Lemma Tmul_1_l (a : T) : Teq (Tmul (Fin 1) a) a.
Proof. destruct a; simpl; [lra|exact I]. Qed.

(** X16. When no forward of the path comes within the band of the
    barrier, every forward being at or below barrier - half-width with a
    half-width that is not negative, the barrier payoff written in cell 0
    equals the payoff of the call written in cell 1. *)
Theorem UOC_untouched_barrier (fuel : nat)
    (systemTime strike barrier maturity freq smooth : Q) (p : UOC.t)
    (path : Scenario) (b0 b1 : T) :
  UOC.UOC fuel systemTime strike barrier maturity freq smooth = Some p ->
  aligned (UOC.dataline p) path = true ->
  let w := hd 0 (spots path) * smooth in
  let vanilla := call_payoff (last (spots path) 0) strike (last (numeraires path) 0) in
  0 <= w -> Forall (fun f => f <= barrier - w) (spots path) ->
  UOC.alive_of p path = Ok (Fin 1) /\
  Req (UOC.payoffs p path [b0; b1]) (Ok [vanilla; vanilla]).
Proof.
  intros Hp Hal w vanilla Hw Hquiet.
  destruct (UOC_payoffs_aligned fuel _ _ _ _ _ _ p path b0 b1 [] Hp Hal)
    as (_ & Ha & Hpay).
  fold w in Ha, Hpay.
  assert (Halive : alive_walk barrier w (spots path) (Fin 1) = Fin 1).
  { rewrite <- (app_nil_r (spots path)).
    rewrite alive_walk_quiet by assumption. reflexivity. }
  rewrite Halive in Ha, Hpay. split; [exact Ha|].
  rewrite Hpay. unfold Req, Veq.
  pose proof (call_payoff_max (last (spots path) 0) strike (last (numeraires path) 0))
    as Hv.
  fold vanilla in Hv.
  constructor; [|constructor; [exact Hv|constructor]].
  eapply Teq_trans; [apply Tmul_1_l|exact Hv].
Qed.

Lemma UOC_untouched_barrier_witness :
  exists p,
    UOC.UOC 0 0 90 100 1 1 (1 # 10) = Some p /\
    Req (UOC.payoffs p [Sample.make 1 [80] [] []; Sample.make 2 [92] [] []]
           [Fin 0; Fin 0])
        (Ok [call_payoff 92 90 2; call_payoff 92 90 2]).
Proof.
  eexists. split; [reflexivity|].
  apply (UOC_untouched_barrier 0 0 90 100 1 1 (1 # 10) _
           [Sample.make 1 [80] [] []; Sample.make 2 [92] [] []]
           (Fin 0) (Fin 0) eq_refl eq_refl).
  - vm_compute. discriminate.
  - constructor; [|constructor; [|constructor]]; vm_compute; discriminate.
Defined.

Lemma Europeans_vectors_witness :
  at_ (Europeans.dataline (Europeans.Europeans [(1, [90; 100]); (2, [95])])) 1
  = Ok (SimulDef.make true [2] [] []).
Proof.
  apply (proj2 (proj2 (proj2
           (Europeans_vectors [(1, [90; 100]); (2, [95])]))) 1%nat 2).
  reflexivity.
Defined.
